(** * Union backend selection policies [eplno] and [eplfs]

    A shallow embedding of [backend/union/policy/eplno.go] and its sibling
    [eplfs] (existing path, least number of objects / least free space),
    followed by the properties of the two tie-break reductions and of the
    six dispatch methods each policy exposes.

    Go values are modelled as follows.
    - [int64] is [Z]; the policies only compare such values, the two
      bounds of the type are [MinInt64] and [MaxInt64].
    - a pointer [*upstream.Fs] and an interface value [upstream.Entry] that
      may be [nil] are [option Fs] and [option Entry]; the elements of a
      candidate slice are dereferenced by the loops, so they are plain
      [Fs] and [Entry].
    - a Go result pair [(v, err)] is a Rocq pair whose second component is
      [option error], [None] standing for a [nil] error.
    - a [nil] slice and an empty slice are both the empty list.
    - the global random source, the upstream queries and the log are
      effects: they are threaded through a state monad over [World].
    - [rand.Shuffle] permutes the caller's slice in place; the model hands
      the permuted list to the loop that follows and does not keep the
      caller's view of the slice, on which no property below depends. *)

From Stdlib Require Import ZArith Lia.
From stdpp Require Import base list strings.

Local Open Scope Z_scope.

(** ** Integers *)

Definition MaxInt64 : Z := 9223372036854775807.
Definition MinInt64 : Z := -9223372036854775808.

Definition int64_ok (z : Z) : bool := (MinInt64 <=? z) && (z <=? MaxInt64).

(** ** Errors *)

Inductive error : Type :=
  | ErrorObjectNotFound          (* fs.ErrorObjectNotFound *)
  | errNoUpstreamsFound          (* eplfs: no upstreams found with more than
                                    min_free_space space spare *)
  | ErrUsageFieldNotSupported    (* upstream: usage field is not supported *)
  | ErrOther (msg : string).     (* any other error of a collaborator *)

(** ** Upstreams and entries *)

Record Options : Type := mkOptions { MinFreeSpace : Z }.

(** The usage fields are [None] when the backend cannot report them, which
    is when the corresponding query fails. *)
Record Fs : Type := mkFs {
  Name : string;
  Opt : Options;
  usage_Objects : option Z;
  usage_Free : option Z
}.

Record Entry : Type := mkEntry {
  Remote : string;
  UpstreamFs : Fs
}.

Definition Fs_ok (u : Fs) : bool :=
  int64_ok (MinFreeSpace (Opt u))
  && from_option int64_ok true (usage_Objects u)
  && from_option int64_ok true (usage_Free u).

(** ** Effects *)

Inductive Event : Type :=
  | EvGetNumObjects (name : string)
  | EvGetFreeSpace (name : string)
  | EvLogNotice (msg : string)
  | EvExists (name path : string).

(** [tape] is the sequence of raw values the global random source will
    produce and [cursor] the number of values drawn so far; [trace] lists
    the queries and log lines issued so far, oldest first. *)
Record World : Type := mkWorld {
  tape : nat -> nat;
  cursor : nat;
  trace : list Event
}.

Definition M (A : Type) : Type := World -> A * World.

Definition ret {A} (a : A) : M A := fun w => (a, w).

Definition bind {A B} (m : M A) (k : A -> M B) : M B :=
  fun w => let (a, w') := m w in k a w'.

Notation "'let*' p := m 'in' k" := (bind m (fun p => k))
  (at level 10, p pattern, m at level 200, k at level 200, only parsing).

Definition eval {A} (m : M A) (w : World) : A := fst (m w).
Definition exec {A} (m : M A) (w : World) : World := snd (m w).

Definition emit (e : Event) : M unit :=
  fun w => (tt, mkWorld (tape w) (cursor w) (trace w ++ [e])).

(** [fs.LogPrintf(fs.LogLevelNotice, nil, ...)] with the message already
    formatted. *)
Definition LogNotice (msg : string) : M unit := emit (EvLogNotice msg).

(** A value in [[0, n)] from the random source ([rand.Intn]). *)
Definition Intn (n : nat) : M nat :=
  fun w => ((tape w (cursor w) mod n)%nat,
            mkWorld (tape w) (S (cursor w)) (trace w)).

(** [for _, x := range l { s = body s x }] *)
Fixpoint for_range {A S} (body : S -> A -> M S) (l : list A) (s : S) : M S :=
  match l with
  | [] => ret s
  | x :: l' => let* s' := body s x in for_range body l' s'
  end.

(** *** Upstream queries *)

(** Modelled from the spec: [upstream.Fs.GetNumObjects] is not part of the
    policy file.  It yields the reported object count, or the value [0]
    together with an error when the count cannot be reported. *)
Definition GetNumObjects (u : Fs) : M (Z * option error) :=
  let* _ := emit (EvGetNumObjects (Name u)) in
  ret (match usage_Objects u with
       | Some n => (n, None)
       | None => (0, Some ErrUsageFieldNotSupported)
       end).

(** Modelled from the spec: [upstream.Fs.GetFreeSpace] is not part of the
    policy file.  It yields the reported free space, or, together with an
    error, "effectively infinite" free space when the free space cannot be
    reported.  Such an upstream may still be selected when it is the only
    candidate, so the value lies below the largest [int64], from which the
    scans start: it is [MaxInt64 - 1]. *)
Definition GetFreeSpace (u : Fs) : M (Z * option error) :=
  let* _ := emit (EvGetFreeSpace (Name u)) in
  ret (match usage_Free u with
       | Some n => (n, None)
       | None => (MaxInt64 - 1, Some ErrUsageFieldNotSupported)
       end).

(** The metric each scan compares, as a pure function of the upstream. *)
Definition numObjects (u : Fs) : Z := default 0 (usage_Objects u).
Definition freeSpace (u : Fs) : Z := default (MaxInt64 - 1) (usage_Free u).

(** *** [rand.Shuffle] *)

(** [s[i], s[j] = s[j], s[i]]; an index out of range makes Go panic, which
    the shuffle below never provokes. *)
Definition swap {A} (s : list A) (i j : nat) : list A :=
  match s !! i, s !! j with
  | Some x, Some y => <[j:=x]> (<[i:=y]> s)
  | _, _ => s
  end.

(** The loop of [rand.Shuffle]: [for ; i > 0; i-- { j := Intn(i+1); swap(i, j) }] *)
Fixpoint shuffle_from {A} (i : nat) (s : list A) : M (list A) :=
  match i with
  | O => ret s
  | S i' => let* j := Intn (S i) in shuffle_from i' (swap s i j)
  end.

Definition Shuffle {A} (s : list A) : M (list A) :=
  shuffle_from (length s - 1)%nat s.

(** ** The existing-path base policy *)

(** [EpAll] is embedded in both policies; its methods are declared elsewhere
    and are taken as given.  The context argument is not modelled. *)
Module EpAll.
Record t : Type := mk {
  epall : list Fs -> string -> M (list Fs * option error);
  Action : list Fs -> string -> M (list Fs * option error);
  ActionEntries : list Entry -> M (list Entry * option error);
  Create : list Fs -> string -> M (list Fs * option error);
  CreateEntries : list Entry -> M (list Entry * option error)
}.
End EpAll.

(** ** [EpLno]: existing path, least number of objects *)

Module EpLno.

Record t : Type := mk { EpAll_ : EpAll.t }.

Definition notSupported (name : string) : string :=
  String.append "Number of Objects is not supported for upstream "
    (String.append name ", treating as 0").

(** The running state of the scan: [minNumObj] and the best so far. *)
Definition lno_body (st : Z * option Fs) (u : Fs) : M (Z * option Fs) :=
  let '(minNumObj, lnoUpstream) := st in
  let* (numObj, err) := GetNumObjects u in
  let* _ := (if err is Some _ then LogNotice (notSupported (Name u)) else ret tt) in
  if minNumObj >? numObj then ret (numObj, Some u)
  else ret (minNumObj, lnoUpstream).

Definition lno (upstreams : list Fs) : M (option Fs * option error) :=
  let* upstreams := Shuffle upstreams in
  let* (_, lnoUpstream) := for_range lno_body upstreams (MaxInt64, None) in
  match lnoUpstream with
  | None => ret (None, Some ErrorObjectNotFound)
  | Some u => ret (Some u, None)
  end.

Definition lnoEntries_body (st : Z * option Entry) (e : Entry)
  : M (Z * option Entry) :=
  let '(minNumObj, lnoEntry) := st in
  let* (numObj, err) := GetNumObjects (UpstreamFs e) in
  let* _ := (if err is Some _ then LogNotice (notSupported (Name (UpstreamFs e)))
        else ret tt) in
  if minNumObj >? numObj then ret (numObj, Some e)
  else ret (minNumObj, lnoEntry).

Definition lnoEntries (entries : list Entry) : M (option Entry * option error) :=
  let* entries := Shuffle entries in
  let* (_, lnoEntry) := for_range lnoEntries_body entries (MaxInt64, None) in
  ret (lnoEntry, None).

Definition Action (p : t) (upstreams : list Fs) (path : string)
  : M (list (option Fs) * option error) :=
  let* (upstreams, err) := EpAll.Action (EpAll_ p) upstreams path in
  match err with
  | Some e => ret ([], Some e)
  | None => let* (u, err) := lno upstreams in ret ([u], err)
  end.

Definition ActionEntries (p : t) (entries : list Entry)
  : M (list (option Entry) * option error) :=
  let* (entries, err) := EpAll.ActionEntries (EpAll_ p) entries in
  match err with
  | Some e => ret ([], Some e)
  | None => let* (e, err) := lnoEntries entries in ret ([e], err)
  end.

Definition Create (p : t) (upstreams : list Fs) (path : string)
  : M (list (option Fs) * option error) :=
  let* (upstreams, err) := EpAll.Create (EpAll_ p) upstreams path in
  match err with
  | Some e => ret ([], Some e)
  | None => let* (u, err) := lno upstreams in ret ([u], err)
  end.

Definition CreateEntries (p : t) (entries : list Entry)
  : M (list (option Entry) * option error) :=
  let* (entries, err) := EpAll.CreateEntries (EpAll_ p) entries in
  match err with
  | Some e => ret ([], Some e)
  | None => let* (e, err) := lnoEntries entries in ret ([e], err)
  end.

Definition Search (p : t) (upstreams : list Fs) (path : string)
  : M (option Fs * option error) :=
  if (length upstreams =? 0)%nat then ret (None, Some ErrorObjectNotFound)
  else
    let* (upstreams, err) := EpAll.epall (EpAll_ p) upstreams path in
    match err with
    | Some e => ret (None, Some e)
    | None => lno upstreams
    end.

Definition SearchEntries (p : t) (entries : list Entry)
  : M (option Entry * option error) :=
  if (length entries =? 0)%nat then ret (None, Some ErrorObjectNotFound)
  else lnoEntries entries.

End EpLno.

(** ** [EpLfs]: existing path, least free space *)

Module EpLfs.

Record t : Type := mk { EpAll_ : EpAll.t }.

Definition notSupported (name : string) : string :=
  String.append "Free Space is not supported for upstream "
    (String.append name ", treating as infinite").

(** [space < minFreeSpace && space > int64(u.Opt.MinFreeSpace)]; the
    conversion to [int64] is the identity on a [SizeSuffix]. *)
Definition better (space minFreeSpace : Z) (u : Fs) : bool :=
  (space <? minFreeSpace) && (space >? MinFreeSpace (Opt u)).

Definition lfs_body (st : Z * option Fs) (u : Fs) : M (Z * option Fs) :=
  let '(minFreeSpace, lfsupstream) := st in
  let* (space, err) := GetFreeSpace u in
  let* _ := (if err is Some _ then LogNotice (notSupported (Name u)) else ret tt) in
  if better space minFreeSpace u then ret (space, Some u)
  else ret (minFreeSpace, lfsupstream).

Definition lfs (upstreams : list Fs) : M (option Fs * option error) :=
  let* upstreams := Shuffle upstreams in
  let* (_, lfsupstream) := for_range lfs_body upstreams (MaxInt64, None) in
  match lfsupstream with
  | None => ret (None, Some errNoUpstreamsFound)
  | Some u => ret (Some u, None)
  end.

Definition lfsEntries_body (st : Z * option Entry) (e : Entry)
  : M (Z * option Entry) :=
  let '(minFreeSpace, lfsEntry) := st in
  let u := UpstreamFs e in
  let* (space, err) := GetFreeSpace u in
  let* _ := (if err is Some _ then LogNotice (notSupported (Name u)) else ret tt) in
  if better space minFreeSpace u then ret (space, Some e)
  else ret (minFreeSpace, lfsEntry).

Definition lfsEntries (entries : list Entry) : M (option Entry * option error) :=
  let* entries := Shuffle entries in
  let* (_, lfsEntry) := for_range lfsEntries_body entries (MaxInt64, None) in
  match lfsEntry with
  | None => ret (None, Some errNoUpstreamsFound)
  | Some e => ret (Some e, None)
  end.

Definition Action (p : t) (upstreams : list Fs) (path : string)
  : M (list (option Fs) * option error) :=
  let* (upstreams, err) := EpAll.Action (EpAll_ p) upstreams path in
  match err with
  | Some e => ret ([], Some e)
  | None => let* (u, err) := lfs upstreams in ret ([u], err)
  end.

Definition ActionEntries (p : t) (entries : list Entry)
  : M (list (option Entry) * option error) :=
  let* (entries, err) := EpAll.ActionEntries (EpAll_ p) entries in
  match err with
  | Some e => ret ([], Some e)
  | None => let* (e, err) := lfsEntries entries in ret ([e], err)
  end.

Definition Create (p : t) (upstreams : list Fs) (path : string)
  : M (list (option Fs) * option error) :=
  let* (upstreams, err) := EpAll.Create (EpAll_ p) upstreams path in
  match err with
  | Some e => ret ([], Some e)
  | None => let* (u, err) := lfs upstreams in ret ([u], err)
  end.

Definition CreateEntries (p : t) (entries : list Entry)
  : M (list (option Entry) * option error) :=
  let* (entries, err) := EpAll.CreateEntries (EpAll_ p) entries in
  match err with
  | Some e => ret ([], Some e)
  | None => let* (e, err) := lfsEntries entries in ret ([e], err)
  end.

Definition Search (p : t) (upstreams : list Fs) (path : string)
  : M (option Fs * option error) :=
  if (length upstreams =? 0)%nat then ret (None, Some ErrorObjectNotFound)
  else
    let* (upstreams, err) := EpAll.epall (EpAll_ p) upstreams path in
    match err with
    | Some e => ret (None, Some e)
    | None => lfs upstreams
    end.

Definition SearchEntries (p : t) (entries : list Entry)
  : M (option Entry * option error) :=
  if (length entries =? 0)%nat then ret (None, Some ErrorObjectNotFound)
  else lfsEntries entries.

End EpLfs.

(** ** Sample data

    The upstreams of the scenarios, a base policy on which every path
    exists everywhere, one whose filter fails, and two initial worlds. *)

Module Sample.

Definition up (name : string) (objects free : option Z) (min : Z) : Fs :=
  mkFs name (mkOptions min) objects free.

Definition A1 := up "A" (Some 5) (Some 100) 0.
Definition B1 := up "B" (Some 5) (Some 50) 0.
Definition C1 := up "C" (Some 9) (Some 200) 0.
Definition A2 := up "A" (Some 1) (Some 10) 20.
Definition B2 := up "B" (Some 2) (Some 5) 0.
Definition B3 := up "B" (Some 2) (Some 5) 10.
Definition Aerr := up "A" None None 0.
Definition Bthree := up "B" (Some 3) (Some 3) 0.
Definition Afull := up "A" (Some MaxInt64) (Some MaxInt64) 0.

Definition entry (u : Fs) : Entry := mkEntry "dir/file" u.

(** Every candidate is kept, after one existence check per upstream. *)
Definition keep (upstreams : list Fs) (path : string)
  : M (list Fs * option error) :=
  let* _ := for_range (fun _ u => emit (EvExists (Name u) path)) upstreams tt in
  ret (upstreams, None).

Definition keepEntries (entries : list Entry) : M (list Entry * option error) :=
  ret (entries, None).

Definition everywhere : EpAll.t :=
  EpAll.mk keep keep keepEntries keep keepEntries.

Definition cancelled : error := ErrOther "context canceled".

Definition broken : EpAll.t :=
  EpAll.mk (fun _ _ => ret ([], Some cancelled))
           (fun _ _ => ret ([], Some cancelled))
           (fun _ => ret ([], Some cancelled))
           (fun _ _ => ret ([], Some cancelled))
           (fun _ => ret ([], Some cancelled)).

Definition w0 : World := mkWorld (fun _ => O) O [].
Definition w1 : World := mkWorld (fun n => (7 * n + 3)%nat) O [].

End Sample.

(** ** The scans without their effects

    Both loops keep a running best value and its owner and replace them
    when a candidate is strictly better and eligible.  [pick] is that step
    for a metric [m] and an eligibility test [ok]; [scan] folds it over the
    candidates in the order given, starting from the largest [int64] and no
    owner. *)

Definition pick {A} (m : A -> Z) (ok : A -> bool) (st : Z * option A) (x : A)
  : Z * option A :=
  if (m x <? st.1) && ok x then (m x, Some x) else st.

Definition scan {A} (m : A -> Z) (ok : A -> bool) (l : list A) : Z * option A :=
  foldl (pick m ok) (MaxInt64, None) l.

Definition always {A} (x : A) : bool := true.

(** [space > int64(u.Opt.MinFreeSpace)] *)
Definition aboveMin (u : Fs) : bool := freeSpace u >? MinFreeSpace (Opt u).

(** The two ways a dispatch method may report the error [e] of the filter
    [filter] or of the reduction [reduce]: an empty result after a failed
    filter, a single [nil] after a failed reduction. *)
Definition propagated {A} (filter : M (list A * option error))
    (reduce : list A -> M (option A * option error))
    (w : World) (res : list (option A)) (e : error) : Prop :=
  (eval filter w).2 = Some e /\ res = []
  \/ (eval filter w).2 = None
     /\ eval (reduce (eval filter w).1) (exec filter w) = (None, Some e)
     /\ res = [None].

(** How the method [method], built from the filter [filter] and the
    reduction [reduce], hands on their errors from the world [w]: the
    filter's error comes back as it is with an empty result; when the
    filter succeeds, the error of the reduction run on what the filter
    kept comes back as it is with a result that holds a single [nil]. *)
Definition hands_on {A} (filter : M (list A * option error))
    (reduce : list A -> M (option A * option error))
    (method : M (list (option A) * option error)) (w : World) : Prop :=
  (forall e, (eval filter w).2 = Some e -> eval method w = ([], Some e))
  /\ (forall e, (eval filter w).2 = None ->
       (eval (reduce (eval filter w).1) (exec filter w)).2 = Some e ->
       eval method w = ([None], Some e)).

(** [x] is the first candidate of the order [l] that attains the least
    metric among the eligible ones: every eligible candidate before it is
    strictly worse and no eligible candidate after it is better. *)
Definition first_least {A} (m : A -> Z) (ok : A -> bool) (l : list A) (x : A)
  : Prop :=
  exists l1 l2, l = l1 ++ x :: l2
    /\ (forall y, y ∈ l1 -> ok y = true -> m x < m y)
    /\ (forall y, y ∈ l2 -> ok y = true -> m x <= m y).

(** The outcome of a scan over the order [l]: either nothing was recorded
    and no eligible candidate lies below the initial value, or the recorded
    candidate is eligible, below the initial value and the first least. *)
Definition found {A} (m : A -> Z) (ok : A -> bool) (l : list A)
    (st : Z * option A) : Prop :=
  match st.2 with
  | None =>
      st.1 = MaxInt64
      /\ forall y, y ∈ l -> ok y = true -> MaxInt64 <= m y
  | Some x =>
      st.1 = m x /\ ok x = true /\ m x < MaxInt64 /\ first_least m ok l x
  end.

(** ** The effects of a reduction

    [drawn n w] is [w] after [n] values were taken from the random source,
    [logged evs w] is [w] after the events [evs] were recorded.  A scan
    issues, per candidate, one query and, when the query fails, one notice. *)

Definition drawn (n : nat) (w : World) : World :=
  mkWorld (tape w) (cursor w + n) (trace w).

Definition logged (evs : list Event) (w : World) : World :=
  mkWorld (tape w) (cursor w) (trace w ++ evs).

Definition lno_events (u : Fs) : list Event :=
  EvGetNumObjects (Name u)
  :: (if usage_Objects u is None
      then [EvLogNotice (EpLno.notSupported (Name u))] else []).

Definition lfs_events (u : Fs) : list Event :=
  EvGetFreeSpace (Name u)
  :: (if usage_Free u is None
      then [EvLogNotice (EpLfs.notSupported (Name u))] else []).

(** Upstreams are compared as values. *)
Global Instance Options_eq_dec : EqDecision Options.
Proof. solve_decision. Defined.

Global Instance Fs_eq_dec : EqDecision Fs.
Proof. solve_decision. Defined.

Global Instance Entry_eq_dec : EqDecision Entry.
Proof. solve_decision. Defined.

(** ** What a dispatch method chooses from

    [least_objects l u]: [u] is one of [l] and none of [l] counts fewer
    objects.  [least_free l u]: [u] is one of [l], is above its threshold,
    and none of [l] above its threshold has less free space. *)

Definition least_objects (l : list Fs) (u : Fs) : Prop :=
  u ∈ l /\ forall x, x ∈ l -> numObjects u <= numObjects x.

Definition least_free (l : list Fs) (u : Fs) : Prop :=
  u ∈ l /\ MinFreeSpace (Opt u) < freeSpace u
  /\ forall x, x ∈ l -> MinFreeSpace (Opt x) < freeSpace x ->
       freeSpace u <= freeSpace x.

(** * Properties *)

(** ** The monad and the loop *)

Lemma eval_bind {A B} (m : M A) (k : A -> M B) w :
  eval (bind m k) w = eval (k (eval m w)) (exec m w).
Proof. unfold eval, exec, bind. by destruct (m w). Qed.

Lemma exec_bind {A B} (m : M A) (k : A -> M B) w :
  exec (bind m k) w = exec (k (eval m w)) (exec m w).
Proof. unfold eval, exec, bind. by destruct (m w). Qed.

Lemma eval_ret {A} (a : A) w : eval (ret a) w = a.
Proof. done. Qed.

Lemma for_range_foldl {A S} (body : S -> A -> M S) (f : S -> A -> S) :
  (forall s x w, eval (body s x) w = f s x) ->
  forall l s w, eval (for_range body l s) w = foldl f s l.
Proof.
  intros Hbody l. induction l as [|x l IH]; intros s w; simpl.
  - done.
  - by rewrite eval_bind, IH, Hbody.
Qed.

(** ** The shuffle permutes *)

Lemma swap_Permutation {A} (s : list A) i j : swap s i j ≡ₚ s.
Proof.
  unfold swap. destruct (s !! i) as [x|] eqn:Hi; [|done].
  destruct (s !! j) as [y|] eqn:Hj; [|done].
  by apply Permutation_insert_swap.
Qed.

Lemma shuffle_from_Permutation {A} i : forall (s : list A) w,
  eval (shuffle_from i s) w ≡ₚ s.
Proof.
  induction i as [|i IH]; intros s w; simpl.
  - done.
  - rewrite eval_bind, IH. apply swap_Permutation.
Qed.

Lemma Shuffle_Permutation {A} (s : list A) w : eval (Shuffle s) w ≡ₚ s.
Proof. apply shuffle_from_Permutation. Qed.

Lemma Shuffle_elem_of {A} (s : list A) w x : x ∈ eval (Shuffle s) w <-> x ∈ s.
Proof. by rewrite Shuffle_Permutation. Qed.

(** The shuffle issues no query and writes no log line. *)
Lemma shuffle_from_trace {A} i : forall (s : list A) w,
  trace (exec (shuffle_from i s) w) = trace w.
Proof.
  induction i as [|i IH]; intros s w; simpl.
  - done.
  - by rewrite exec_bind, IH.
Qed.

(** ** The queries *)

Lemma GetNumObjects_value u w : (eval (GetNumObjects u) w).1 = numObjects u.
Proof. unfold GetNumObjects, numObjects. rewrite eval_bind. by destruct (usage_Objects u). Qed.

Lemma GetFreeSpace_value u w : (eval (GetFreeSpace u) w).1 = freeSpace u.
Proof. unfold GetFreeSpace, freeSpace. rewrite eval_bind. by destruct (usage_Free u). Qed.

(** A failed query yields the fallback of its metric. *)
Lemma GetNumObjects_fallback u w e :
  (eval (GetNumObjects u) w).2 = Some e -> numObjects u = 0.
Proof.
  unfold GetNumObjects, numObjects. rewrite eval_bind.
  by destruct (usage_Objects u).
Qed.


(** ** The loop bodies are [pick] *)

Lemma lno_body_pick st u w :
  eval (EpLno.lno_body st u) w = pick numObjects always st u.
Proof.
  destruct st as [v b]. unfold EpLno.lno_body, pick, always, numObjects, GetNumObjects.
  rewrite !eval_bind. simpl. rewrite andb_true_r, <- Z.gtb_ltb.
  destruct (usage_Objects u); simpl; rewrite eval_bind; by case (_ >? _).
Qed.

Lemma lnoEntries_body_pick st e w :
  eval (EpLno.lnoEntries_body st e) w = pick (numObjects ∘ UpstreamFs) always st e.
Proof.
  destruct st as [v b].
  unfold EpLno.lnoEntries_body, pick, always, numObjects, GetNumObjects, compose.
  rewrite !eval_bind. simpl. rewrite andb_true_r, <- Z.gtb_ltb.
  destruct (usage_Objects _); simpl; rewrite eval_bind; by case (_ >? _).
Qed.

Lemma lfs_body_pick st u w :
  eval (EpLfs.lfs_body st u) w = pick freeSpace aboveMin st u.
Proof.
  destruct st as [v b].
  unfold EpLfs.lfs_body, EpLfs.better, pick, aboveMin, freeSpace, GetFreeSpace.
  rewrite !eval_bind. simpl.
  destruct (usage_Free u); simpl; rewrite eval_bind; by case (_ && _).
Qed.

Lemma lfsEntries_body_pick st e w :
  eval (EpLfs.lfsEntries_body st e) w
  = pick (freeSpace ∘ UpstreamFs) (aboveMin ∘ UpstreamFs) st e.
Proof.
  destruct st as [v b].
  unfold EpLfs.lfsEntries_body, EpLfs.better, pick, aboveMin, freeSpace,
    GetFreeSpace, compose.
  rewrite !eval_bind. simpl.
  destruct (usage_Free _); simpl; rewrite eval_bind; by case (_ && _).
Qed.

(** ** Each reduction is a shuffle followed by a scan *)

Lemma lno_eval ups w :
  eval (EpLno.lno ups) w
  = match (scan numObjects always (eval (Shuffle ups) w)).2 with
    | None => (None, Some ErrorObjectNotFound)
    | Some u => (Some u, None)
    end.
Proof.
  unfold EpLno.lno, scan. rewrite !eval_bind.
  rewrite (for_range_foldl _ _ lno_body_pick).
  by destruct (foldl _ _ _) as [v [u|]].
Qed.

Lemma lnoEntries_eval es w :
  eval (EpLno.lnoEntries es) w
  = ((scan (numObjects ∘ UpstreamFs) always (eval (Shuffle es) w)).2, None).
Proof.
  unfold EpLno.lnoEntries, scan. rewrite !eval_bind.
  rewrite (for_range_foldl _ _ lnoEntries_body_pick).
  by destruct (foldl _ _ _) as [v [u|]].
Qed.

Lemma lfs_eval ups w :
  eval (EpLfs.lfs ups) w
  = match (scan freeSpace aboveMin (eval (Shuffle ups) w)).2 with
    | None => (None, Some errNoUpstreamsFound)
    | Some u => (Some u, None)
    end.
Proof.
  unfold EpLfs.lfs, scan. rewrite !eval_bind.
  rewrite (for_range_foldl _ _ lfs_body_pick).
  by destruct (foldl _ _ _) as [v [u|]].
Qed.

Lemma lfsEntries_eval es w :
  eval (EpLfs.lfsEntries es) w
  = match (scan (freeSpace ∘ UpstreamFs) (aboveMin ∘ UpstreamFs)
             (eval (Shuffle es) w)).2 with
    | None => (None, Some errNoUpstreamsFound)
    | Some e => (Some e, None)
    end.
Proof.
  unfold EpLfs.lfsEntries, scan. rewrite !eval_bind.
  rewrite (for_range_foldl _ _ lfsEntries_body_pick).
  by destruct (foldl _ _ _) as [v [u|]].
Qed.

(** ** What a scan finds *)

Section Scan.

Context {A : Type} (m : A -> Z) (ok : A -> bool).

Lemma scan_snoc l x : scan m ok (l ++ [x]) = pick m ok (scan m ok l) x.
Proof. unfold scan. by rewrite foldl_app. Qed.

Lemma scan_found l : found m ok l (scan m ok l).
Proof.
  induction l as [|y l IH] using rev_ind.
  - split; [done|]. intros y Hy. by apply elem_of_nil in Hy.
  - rewrite scan_snoc. destruct (scan m ok l) as [v b].
    unfold pick; simpl. destruct (m y <? v) eqn:Hlt; simpl.
    + apply Z.ltb_lt in Hlt. destruct (ok y) eqn:Hok.
      * (* [y] replaces the running best *)
        unfold found, first_least in *; simpl in *.
        split; [done|]. split; [done|].
        destruct b as [x|].
        -- destruct IH as (-> & Hx & Hmax & l1 & l2 & -> & Hl1 & Hl2).
           split; [lia|]. exists (l1 ++ x :: l2), []. split; [done|].
           split; [|intros z Hz; by apply elem_of_nil in Hz].
           intros z Hz Hokz.
           apply elem_of_app in Hz as [Hz|Hz].
           ++ specialize (Hl1 z Hz Hokz). lia.
           ++ apply elem_of_cons in Hz as [->|Hz]; [lia|].
              specialize (Hl2 z Hz Hokz). lia.
        -- destruct IH as (-> & Hall).
           split; [lia|]. exists l, []. split; [done|].
           split; [|intros z Hz; by apply elem_of_nil in Hz].
           intros z Hz Hokz. specialize (Hall z Hz Hokz). lia.
      * (* [y] is not eligible *)
        unfold found, first_least in *; simpl in *. destruct b as [x|].
        -- destruct IH as (-> & Hx & Hmax & l1 & l2 & -> & Hl1 & Hl2).
           do 3 (split; [done|]). exists l1, (l2 ++ [y]).
           split; [by rewrite <- app_assoc|]. split; [done|].
           intros z Hz Hokz. apply elem_of_app in Hz as [Hz|Hz]; [by apply Hl2|].
           apply list_elem_of_singleton in Hz as ->. congruence.
        -- destruct IH as (-> & Hall). split; [done|].
           intros z Hz Hokz. apply elem_of_app in Hz as [Hz|Hz]; [by apply Hall|].
           apply list_elem_of_singleton in Hz as ->. congruence.
    + (* [y] is not strictly better *)
      apply Z.ltb_ge in Hlt.
      unfold found, first_least in *; simpl in *. destruct b as [x|].
      * destruct IH as (-> & Hx & Hmax & l1 & l2 & -> & Hl1 & Hl2).
        do 3 (split; [done|]). exists l1, (l2 ++ [y]).
        split; [by rewrite <- app_assoc|]. split; [done|].
        intros z Hz Hokz. apply elem_of_app in Hz as [Hz|Hz]; [by apply Hl2|].
        by apply list_elem_of_singleton in Hz as ->.
      * destruct IH as (-> & Hall). split; [done|].
        intros z Hz Hokz. apply elem_of_app in Hz as [Hz|Hz]; [by apply Hall|].
        by apply list_elem_of_singleton in Hz as ->.
Qed.

Lemma scan_Some l x :
  (scan m ok l).2 = Some x ->
  ok x = true /\ m x < MaxInt64 /\ first_least m ok l x.
Proof.
  intros H. pose proof (scan_found l) as Hf. unfold found in Hf.
  rewrite H in Hf. tauto.
Qed.

Lemma scan_Some_elem_of l x : (scan m ok l).2 = Some x -> x ∈ l.
Proof.
  intros (_ & _ & l1 & l2 & -> & _)%scan_Some.
  apply elem_of_app. right. apply elem_of_cons. by left.
Qed.

Lemma scan_Some_least l x y :
  (scan m ok l).2 = Some x -> y ∈ l -> ok y = true -> m x <= m y.
Proof.
  intros (_ & _ & l1 & l2 & -> & Hl1 & Hl2)%scan_Some Hy Hok.
  apply elem_of_app in Hy as [Hy|Hy].
  - specialize (Hl1 y Hy Hok). lia.
  - apply elem_of_cons in Hy as [->|Hy]; [lia|]. by apply Hl2.
Qed.

(** Nothing is recorded exactly when no eligible candidate lies below the
    largest [int64]. *)
Lemma scan_None l :
  (scan m ok l).2 = None <->
  forall y, y ∈ l -> ok y = true -> MaxInt64 <= m y.
Proof.
  split.
  - intros H. pose proof (scan_found l) as Hf. unfold found in Hf.
    rewrite H in Hf. tauto.
  - intros Hall. destruct (scan m ok l).2 as [x|] eqn:H; [|done].
    pose proof (scan_Some_elem_of l x H) as Hx.
    apply scan_Some in H as (Hok & Hlt & _).
    specialize (Hall x Hx Hok). lia.
Qed.

End Scan.

(** ** Least free space: the reserved threshold *)

(** C1.  Whatever candidates [lfs] or [lfsEntries] is given, any upstream
    (or the upstream of any entry) it returns has free space strictly
    above its own [MinFreeSpace]; an upstream at or below its threshold is
    never returned, whatever the free space of the others. *)
Theorem lfs_above_threshold (ups : list Fs) (es : list Entry) (w : World) :
  (forall u, (eval (EpLfs.lfs ups) w).1 = Some u ->
     freeSpace u > MinFreeSpace (Opt u))
  /\ (forall e, (eval (EpLfs.lfsEntries es) w).1 = Some e ->
     freeSpace (UpstreamFs e) > MinFreeSpace (Opt (UpstreamFs e))).
Proof.
  split.
  - intros u. rewrite lfs_eval.
    destruct (scan _ _ _).2 as [x|] eqn:Hscan; [|done].
    intros [= <-]. apply scan_Some in Hscan as (Hok & _).
    unfold aboveMin in Hok. apply Z.gtb_lt in Hok. lia.
  - intros e. rewrite lfsEntries_eval.
    destruct (scan _ _ _).2 as [x|] eqn:Hscan; [|done].
    intros [= <-]. apply scan_Some in Hscan as (Hok & _).
    unfold aboveMin, compose in Hok. apply Z.gtb_lt in Hok. lia.
Qed.

(** [B3] has the least free space of the two but sits under its threshold:
    [A1] is returned. *)
Lemma lfs_above_threshold_witness :
  let ups := [Sample.B3; Sample.A1] in
  let es := map Sample.entry ups in
  let w := Sample.w1 in
  (eval (EpLfs.lfs ups) w).1 = Some Sample.A1
  /\ (eval (EpLfs.lfsEntries es) w).1 = Some (Sample.entry Sample.A1)
  /\ freeSpace Sample.B3 < freeSpace Sample.A1
  /\ freeSpace Sample.A1 > MinFreeSpace (Opt Sample.A1)
  /\ freeSpace (UpstreamFs (Sample.entry Sample.A1))
     > MinFreeSpace (Opt (UpstreamFs (Sample.entry Sample.A1))).
Proof.
  intros ups es w.
  destruct (lfs_above_threshold ups es w) as [Hu He].
  split; [reflexivity|]. split; [reflexivity|]. split; [reflexivity|].
  split; [apply Hu | apply He]; reflexivity.
Defined.

(** ** Least number of objects: the winner is least *)

(** C2.  The upstream [lno] returns has an object count, [0] standing in
    for a count that could not be queried, no larger than that of any
    candidate of the input. *)
Theorem lno_least_objects (ups : list Fs) (w : World) (u x : Fs) :
  (eval (EpLno.lno ups) w).1 = Some u ->
  x ∈ ups ->
  numObjects u <= numObjects x.
Proof.
  rewrite lno_eval.
  destruct (scan _ _ _).2 as [y|] eqn:Hscan; [|done].
  intros [= <-] Hx.
  apply (scan_Some_least _ _ _ _ _ Hscan); [|done].
  by apply Shuffle_elem_of.
Qed.

Lemma lno_least_objects_witness :
  (eval (EpLno.lno [Sample.C1; Sample.Aerr; Sample.Bthree]) Sample.w1).1
    = Some Sample.Aerr
  /\ numObjects Sample.Aerr <= numObjects Sample.C1.
Proof.
  split; [reflexivity|].
  apply (lno_least_objects [Sample.C1; Sample.Aerr; Sample.Bthree] Sample.w1).
  - reflexivity.
  - apply elem_of_cons. by left.
Defined.

(** ** Least free space: an upstream that cannot report *)






(** ** The largest count *)

(** [lno] reports not-found exactly when every candidate counts at least
    the largest [int64], which the empty list does. *)
Lemma lno_not_found ups w :
  eval (EpLno.lno ups) w = (None, Some ErrorObjectNotFound)
  <-> forall u, u ∈ ups -> MaxInt64 <= numObjects u.
Proof.
  rewrite lno_eval.
  destruct (scan _ _ _).2 as [x|] eqn:Hscan.
  - split; [done|]. intros Hall.
    assert ((scan numObjects always (eval (Shuffle ups) w)).2 = None) as Hn.
    { apply scan_None. intros y Hy _. apply Hall. by apply Shuffle_elem_of in Hy. }
    congruence.
  - split; [|done]. intros _ u Hu.
    apply (proj1 (scan_None _ _ _) Hscan); [|done]. by apply Shuffle_elem_of.
Qed.

Lemma lno_empty w : eval (EpLno.lno []) w = (None, Some ErrorObjectNotFound).
Proof. done. Qed.

(** Below the largest [int64] the not-found error does mean empty input. *)
Lemma lno_selects ups w :
  ups <> [] ->
  (forall u, u ∈ ups -> numObjects u < MaxInt64) ->
  exists u, eval (EpLno.lno ups) w = (Some u, None).
Proof.
  intros Hne Hlt. destruct (eval (EpLno.lno ups) w) as [r e] eqn:Hr.
  rewrite lno_eval in Hr. destruct (scan _ _ _).2 as [x|] eqn:Hscan.
  - exists x. congruence.
  - destruct ups as [|u ups]; [done|].
    pose proof (proj1 (scan_None _ _ _) Hscan u) as Hu.
    rewrite Shuffle_elem_of in Hu. specialize (Hu (list_elem_of_here _ _) eq_refl).
    specialize (Hlt u (list_elem_of_here _ _)). lia.
Qed.

(** C6.  [lno] given the single upstream [Afull], which reports the largest
    [int64] as its object count, returns the not-found error although its
    input is not empty. *)
Theorem lno_not_found_nonempty (w : World) :
  Fs_ok Sample.Afull = true
  /\ [Sample.Afull] <> []
  /\ eval (EpLno.lno [Sample.Afull]) w = (None, Some ErrorObjectNotFound).
Proof. done. Qed.

(** ** No recorded best *)

(** The three reductions that test their best for [nil] turn a scan that
    recorded nothing into their error. *)
Lemma lno_no_best ups w :
  (scan numObjects always (eval (Shuffle ups) w)).2 = None ->
  eval (EpLno.lno ups) w = (None, Some ErrorObjectNotFound).
Proof. rewrite lno_eval. by intros ->. Qed.

Lemma lfs_no_best ups w :
  (scan freeSpace aboveMin (eval (Shuffle ups) w)).2 = None ->
  eval (EpLfs.lfs ups) w = (None, Some errNoUpstreamsFound).
Proof. rewrite lfs_eval. by intros ->. Qed.

Lemma lfsEntries_no_best es w :
  (scan (freeSpace ∘ UpstreamFs) (aboveMin ∘ UpstreamFs) (eval (Shuffle es) w)).2
    = None ->
  eval (EpLfs.lfsEntries es) w = (None, Some errNoUpstreamsFound).
Proof. rewrite lfsEntries_eval. by intros ->. Qed.

(** In particular when every candidate is at or under its threshold. *)
Lemma lfs_all_under_threshold ups w :
  (forall u, u ∈ ups -> freeSpace u <= MinFreeSpace (Opt u)) ->
  eval (EpLfs.lfs ups) w = (None, Some errNoUpstreamsFound).
Proof.
  intros Hall. apply lfs_no_best, scan_None. intros y Hy Hok.
  apply Shuffle_elem_of in Hy. specialize (Hall y Hy).
  unfold aboveMin in Hok. apply Z.gtb_lt in Hok. lia.
Qed.

(** [lnoEntries] never reports an error. *)
Lemma lnoEntries_no_error es w : (eval (EpLno.lnoEntries es) w).2 = None.
Proof. by rewrite lnoEntries_eval. Qed.

(** C4.  [lnoEntries] given no entry at all, or the single entry of an
    upstream that reports the largest [int64] as its object count, records
    no best and returns a [nil] entry with a [nil] error. *)
Theorem lnoEntries_nil_without_error (w : World) :
  eval (EpLno.lnoEntries []) w = (None, None)
  /\ eval (EpLno.lnoEntries [Sample.entry Sample.Afull]) w = (None, None).
Proof. done. Qed.

(** ** Dispatch: errors *)

(** A reduction that fails returns no winner. *)
Lemma lno_error ups w v e : eval (EpLno.lno ups) w = (v, Some e) -> v = None.
Proof. rewrite lno_eval. destruct (scan _ _ _).2; congruence. Qed.

Lemma lnoEntries_error es w v e :
  eval (EpLno.lnoEntries es) w = (v, Some e) -> v = None.
Proof. rewrite lnoEntries_eval. congruence. Qed.

Lemma lfs_error ups w v e : eval (EpLfs.lfs ups) w = (v, Some e) -> v = None.
Proof. rewrite lfs_eval. destruct (scan _ _ _).2; congruence. Qed.

Lemma lfsEntries_error es w v e :
  eval (EpLfs.lfsEntries es) w = (v, Some e) -> v = None.
Proof. rewrite lfsEntries_eval. destruct (scan _ _ _).2; congruence. Qed.

(** The shape shared by the eight [Action] and [Create] methods. *)
Lemma pipeline_propagated {A} (filter : M (list A * option error))
    (reduce : list A -> M (option A * option error)) w res e :
  (forall l w v e, eval (reduce l) w = (v, Some e) -> v = None) ->
  eval (let* (l, err) := filter in
        match err with
        | Some e => ret ([], Some e)
        | None => let* (u, err) := reduce l in ret ([u], err)
        end) w = (res, Some e) ->
  propagated filter reduce w res e.
Proof.
  intros Hred. unfold propagated. rewrite eval_bind.
  destruct (eval filter w) as [l [e'|]] eqn:Hf; simpl.
  - intros [= <- <-]. by left.
  - rewrite eval_bind.
    destruct (eval (reduce l) (exec filter w)) as [v err] eqn:Hr; simpl.
    intros [= <- ->]. right. split; [done|].
    pose proof (Hred _ _ _ _ Hr) as ->. done.
Qed.

(** Conversely, an error that an [Action] or [Create] method returns is
    the error of its filter or of its reduction. *)
Lemma dispatch_error_origin (p : EpLno.t) (q : EpLfs.t)
    (ups : list Fs) (es : list Entry) (path : string) (w : World) (e : error) :
  (forall res, eval (EpLno.Action p ups path) w = (res, Some e) ->
     propagated (EpAll.Action (EpLno.EpAll_ p) ups path) EpLno.lno w res e)
  /\ (forall res, eval (EpLno.ActionEntries p es) w = (res, Some e) ->
     propagated (EpAll.ActionEntries (EpLno.EpAll_ p) es) EpLno.lnoEntries w res e)
  /\ (forall res, eval (EpLno.Create p ups path) w = (res, Some e) ->
     propagated (EpAll.Create (EpLno.EpAll_ p) ups path) EpLno.lno w res e)
  /\ (forall res, eval (EpLno.CreateEntries p es) w = (res, Some e) ->
     propagated (EpAll.CreateEntries (EpLno.EpAll_ p) es) EpLno.lnoEntries w res e)
  /\ (forall res, eval (EpLfs.Action q ups path) w = (res, Some e) ->
     propagated (EpAll.Action (EpLfs.EpAll_ q) ups path) EpLfs.lfs w res e)
  /\ (forall res, eval (EpLfs.ActionEntries q es) w = (res, Some e) ->
     propagated (EpAll.ActionEntries (EpLfs.EpAll_ q) es) EpLfs.lfsEntries w res e)
  /\ (forall res, eval (EpLfs.Create q ups path) w = (res, Some e) ->
     propagated (EpAll.Create (EpLfs.EpAll_ q) ups path) EpLfs.lfs w res e)
  /\ (forall res, eval (EpLfs.CreateEntries q es) w = (res, Some e) ->
     propagated (EpAll.CreateEntries (EpLfs.EpAll_ q) es) EpLfs.lfsEntries w res e).
Proof.
  repeat split; intros res Hres.
  - apply pipeline_propagated; [apply lno_error | exact Hres].
  - apply pipeline_propagated; [apply lnoEntries_error | exact Hres].
  - apply pipeline_propagated; [apply lno_error | exact Hres].
  - apply pipeline_propagated; [apply lnoEntries_error | exact Hres].
  - apply pipeline_propagated; [apply lfs_error | exact Hres].
  - apply pipeline_propagated; [apply lfsEntries_error | exact Hres].
  - apply pipeline_propagated; [apply lfs_error | exact Hres].
  - apply pipeline_propagated; [apply lfsEntries_error | exact Hres].
Qed.

Lemma pipeline_hands_on {A} (filter : M (list A * option error))
    (reduce : list A -> M (option A * option error)) w :
  (forall l w v e, eval (reduce l) w = (v, Some e) -> v = None) ->
  hands_on filter reduce
    (let* (l, err) := filter in
     match err with
     | Some e => ret ([], Some e)
     | None => let* (u, err) := reduce l in ret ([u], err)
     end) w.
Proof.
  intros Hred. split; intros e.
  - rewrite eval_bind. destruct (eval filter w) as [l err]; simpl.
    by intros ->.
  - rewrite eval_bind. destruct (eval filter w) as [l err]; simpl.
    intros -> Hr. rewrite eval_bind.
    destruct (eval (reduce l) (exec filter w)) as [v err] eqn:Hv; simpl in *.
    subst err. by rewrite (Hred _ _ _ _ Hv).
Qed.

(** C5, as the code has it.  In every [Action] and [Create] method of
    either policy, in either call shape, an error of the existence filter
    is returned as it is with an empty result, and, after a filter that
    succeeded, an error of the reduction is returned as it is with a
    one-element result that holds [nil] and no upstream or entry. *)
Theorem dispatch_error_returned (p : EpLno.t) (q : EpLfs.t)
    (ups : list Fs) (es : list Entry) (path : string) (w : World) :
  hands_on (EpAll.Action (EpLno.EpAll_ p) ups path) EpLno.lno
    (EpLno.Action p ups path) w
  /\ hands_on (EpAll.ActionEntries (EpLno.EpAll_ p) es) EpLno.lnoEntries
       (EpLno.ActionEntries p es) w
  /\ hands_on (EpAll.Create (EpLno.EpAll_ p) ups path) EpLno.lno
       (EpLno.Create p ups path) w
  /\ hands_on (EpAll.CreateEntries (EpLno.EpAll_ p) es) EpLno.lnoEntries
       (EpLno.CreateEntries p es) w
  /\ hands_on (EpAll.Action (EpLfs.EpAll_ q) ups path) EpLfs.lfs
       (EpLfs.Action q ups path) w
  /\ hands_on (EpAll.ActionEntries (EpLfs.EpAll_ q) es) EpLfs.lfsEntries
       (EpLfs.ActionEntries q es) w
  /\ hands_on (EpAll.Create (EpLfs.EpAll_ q) ups path) EpLfs.lfs
       (EpLfs.Create q ups path) w
  /\ hands_on (EpAll.CreateEntries (EpLfs.EpAll_ q) es) EpLfs.lfsEntries
       (EpLfs.CreateEntries q es) w.
Proof.
  split; [apply pipeline_hands_on, lno_error|].
  split; [apply pipeline_hands_on, lnoEntries_error|].
  split; [apply pipeline_hands_on, lno_error|].
  split; [apply pipeline_hands_on, lnoEntries_error|].
  split; [apply pipeline_hands_on, lfs_error|].
  split; [apply pipeline_hands_on, lfsEntries_error|].
  split; [apply pipeline_hands_on, lfs_error|].
  apply pipeline_hands_on, lfsEntries_error.
Qed.

(** With a filter that fails, every method returns the filter's error and
    an empty result.  Where the path exists on [A2], which is under its
    threshold, the four least-free-space methods return the error of
    their reduction with [nil] in a list; where it exists on [Afull], which
    counts the largest [int64], so do [Action] and [Create] of the
    least-object-count policy. *)
Lemma dispatch_error_returned_witness :
  let p := EpLno.mk Sample.broken in
  let q := EpLfs.mk Sample.broken in
  let p' := EpLno.mk Sample.everywhere in
  let q' := EpLfs.mk Sample.everywhere in
  let ups := [Sample.A2] in
  let es := [Sample.entry Sample.A2] in
  let w := Sample.w0 in
  let e := Sample.cancelled in
  (eval (EpLno.Action p ups "dir") w = ([], Some e)
   /\ eval (EpLno.ActionEntries p es) w = ([], Some e)
   /\ eval (EpLno.Create p ups "dir") w = ([], Some e)
   /\ eval (EpLno.CreateEntries p es) w = ([], Some e)
   /\ eval (EpLfs.Action q ups "dir") w = ([], Some e)
   /\ eval (EpLfs.ActionEntries q es) w = ([], Some e)
   /\ eval (EpLfs.Create q ups "dir") w = ([], Some e)
   /\ eval (EpLfs.CreateEntries q es) w = ([], Some e))
  /\ (eval (EpLfs.Action q' ups "dir") w = ([None], Some errNoUpstreamsFound)
      /\ eval (EpLfs.ActionEntries q' es) w = ([None], Some errNoUpstreamsFound)
      /\ eval (EpLfs.Create q' ups "dir") w = ([None], Some errNoUpstreamsFound)
      /\ eval (EpLfs.CreateEntries q' es) w = ([None], Some errNoUpstreamsFound))
  /\ (eval (EpLno.Action p' [Sample.Afull] "dir") w
        = ([None], Some ErrorObjectNotFound)
      /\ eval (EpLno.Create p' [Sample.Afull] "dir") w
        = ([None], Some ErrorObjectNotFound)).
Proof.
  intros p q p' q' ups es w e.
  destruct (dispatch_error_returned p q ups es "dir" w)
    as ((H1 & _) & (H2 & _) & (H3 & _) & (H4 & _)
        & (H5 & _) & (H6 & _) & (H7 & _) & (H8 & _)).
  destruct (dispatch_error_returned p' q' ups es "dir" w)
    as (_ & _ & _ & _ & (_ & K5) & (_ & K6) & (_ & K7) & (_ & K8)).
  destruct (dispatch_error_returned p' q' [Sample.Afull] es "dir" w)
    as ((_ & L1) & _ & (_ & L3) & _).
  split; [|split].
  - split; [apply H1; reflexivity|]. split; [apply H2; reflexivity|].
    split; [apply H3; reflexivity|]. split; [apply H4; reflexivity|].
    split; [apply H5; reflexivity|]. split; [apply H6; reflexivity|].
    split; [apply H7; reflexivity | apply H8; reflexivity].
  - split; [apply K5; reflexivity|]. split; [apply K6; reflexivity|].
    split; [apply K7; reflexivity | apply K8; reflexivity].
  - split; [apply L1; reflexivity | apply L3; reflexivity].
Defined.

(** C5, as stated, fails: the error of the reduction comes with a result
    collection that is not empty. *)
Lemma Action_error_with_nonempty_result :
  let r := eval (EpLfs.Action (EpLfs.mk Sample.everywhere) [Sample.A2] "dir")
             Sample.w0 in
  r.2 = Some errNoUpstreamsFound /\ r.1 = [None] /\ r.1 <> [].
Proof. done. Qed.

(** ** Ties: the first least candidate wins *)

(** A candidate that is not strictly better leaves the running state of
    the scan as it was. *)
Lemma pick_keeps {A} (m : A -> Z) (ok : A -> bool) v b x :
  v <= m x -> pick m ok (v, b) x = (v, b).
Proof.
  intros Hle. unfold pick; simpl.
  by destruct (Z.ltb_spec (m x) v); [lia|].
Qed.

(** A strictly better eligible candidate becomes the running best. *)
Lemma pick_records {A} (m : A -> Z) (ok : A -> bool) v b x :
  m x < v -> ok x = true -> pick m ok (v, b) x = (m x, Some x).
Proof.
  intros Hlt Hok. unfold pick; simpl. rewrite Hok.
  by destruct (Z.ltb_spec (m x) v); [|lia].
Qed.

Lemma foldl_pick_keeps {A} (m : A -> Z) (ok : A -> bool) l : forall v b,
  (forall y, y ∈ l -> ok y = true -> v <= m y) ->
  foldl (pick m ok) (v, b) l = (v, b).
Proof.
  induction l as [|x l IH]; intros v b Hall; simpl; [done|].
  assert (pick m ok (v, b) x = (v, b)) as ->.
  { unfold pick; simpl. destruct (ok x) eqn:Hok; [|by rewrite andb_false_r].
    rewrite andb_true_r. pose proof (Hall x (list_elem_of_here _ _) Hok).
    by destruct (Z.ltb_spec (m x) v); [lia|]. }
  apply IH. intros y Hy. apply Hall. by apply list_elem_of_further.
Qed.

Lemma foldl_pick_above {A} (m : A -> Z) (ok : A -> bool) c l : forall v b,
  c < v ->
  (forall y, y ∈ l -> ok y = true -> c < m y) ->
  c < (foldl (pick m ok) (v, b) l).1.
Proof.
  induction l as [|x l IH]; intros v b Hc Hall; simpl; [done|].
  unfold pick at 2; simpl.
  destruct ((m x <? v) && ok x) eqn:Hp.
  - apply andb_true_iff in Hp as [_ Hok]. apply IH.
    + apply Hall; [apply list_elem_of_here | done].
    + intros y Hy. apply Hall. by apply list_elem_of_further.
  - apply IH; [done|]. intros y Hy. apply Hall. by apply list_elem_of_further.
Qed.

(** An eligible candidate below the largest [int64] that is the first
    least of the order scanned is what the scan records. *)
Lemma scan_first_least {A} (m : A -> Z) (ok : A -> bool) l x :
  ok x = true -> m x < MaxInt64 -> first_least m ok l x ->
  scan m ok l = (m x, Some x).
Proof.
  intros Hok Hlt (l1 & l2 & -> & Hl1 & Hl2). unfold scan.
  rewrite foldl_app. simpl.
  pose proof (foldl_pick_above m ok (m x) l1 MaxInt64 None Hlt Hl1) as Habove.
  destruct (foldl (pick m ok) (MaxInt64, None) l1) as [v b]. simpl in Habove.
  rewrite (pick_records m ok v b x Habove Hok).
  by apply foldl_pick_keeps.
Qed.

Lemma scan_Some_iff {A} (m : A -> Z) (ok : A -> bool) l x :
  (scan m ok l).2 = Some x
  <-> ok x = true /\ m x < MaxInt64 /\ first_least m ok l x.
Proof.
  split; [apply scan_Some|].
  intros (Hok & Hlt & Hfirst). by rewrite (scan_first_least m ok l x).
Qed.

(** C7.  In each of the four loops a candidate whose metric is not
    strictly below the running best leaves the best as it is, and an
    eligible candidate whose metric is strictly below it becomes the best.
    So a reduction returns a candidate exactly when that candidate is
    eligible, below the initial value and, in the order the shuffle
    produced, the first to attain the least metric among the eligible
    candidates: those before it are strictly worse, those after it are not
    better. *)
Theorem first_least_wins (ups : list Fs) (es : list Entry) (w : World) :
  ((forall v b u w', v <= numObjects u ->
      eval (EpLno.lno_body (v, b) u) w' = (v, b))
   /\ (forall v b e w', v <= numObjects (UpstreamFs e) ->
      eval (EpLno.lnoEntries_body (v, b) e) w' = (v, b))
   /\ (forall v b u w', v <= freeSpace u ->
      eval (EpLfs.lfs_body (v, b) u) w' = (v, b))
   /\ (forall v b e w', v <= freeSpace (UpstreamFs e) ->
      eval (EpLfs.lfsEntries_body (v, b) e) w' = (v, b)))
  /\ ((forall v b u w', numObjects u < v ->
       eval (EpLno.lno_body (v, b) u) w' = (numObjects u, Some u))
      /\ (forall v b e w', numObjects (UpstreamFs e) < v ->
       eval (EpLno.lnoEntries_body (v, b) e) w'
       = (numObjects (UpstreamFs e), Some e))
      /\ (forall v b u w', freeSpace u < v ->
       MinFreeSpace (Opt u) < freeSpace u ->
       eval (EpLfs.lfs_body (v, b) u) w' = (freeSpace u, Some u))
      /\ (forall v b e w', freeSpace (UpstreamFs e) < v ->
       MinFreeSpace (Opt (UpstreamFs e)) < freeSpace (UpstreamFs e) ->
       eval (EpLfs.lfsEntries_body (v, b) e) w'
       = (freeSpace (UpstreamFs e), Some e)))
  /\ ((forall u, (eval (EpLno.lno ups) w).1 = Some u <->
       numObjects u < MaxInt64
       /\ first_least numObjects always (eval (Shuffle ups) w) u)
      /\ (forall e, (eval (EpLno.lnoEntries es) w).1 = Some e <->
       numObjects (UpstreamFs e) < MaxInt64
       /\ first_least (numObjects ∘ UpstreamFs) always (eval (Shuffle es) w) e)
      /\ (forall u, (eval (EpLfs.lfs ups) w).1 = Some u <->
       MinFreeSpace (Opt u) < freeSpace u < MaxInt64
       /\ first_least freeSpace aboveMin (eval (Shuffle ups) w) u)
      /\ (forall e, (eval (EpLfs.lfsEntries es) w).1 = Some e <->
       MinFreeSpace (Opt (UpstreamFs e)) < freeSpace (UpstreamFs e) < MaxInt64
       /\ first_least (freeSpace ∘ UpstreamFs) (aboveMin ∘ UpstreamFs)
            (eval (Shuffle es) w) e)).
Proof.
  split; [|split].
  - split; [|split; [|split]].
    + intros v b u w' H. rewrite lno_body_pick. by apply pick_keeps.
    + intros v b e w' H. rewrite lnoEntries_body_pick. by apply pick_keeps.
    + intros v b u w' H. rewrite lfs_body_pick. by apply pick_keeps.
    + intros v b e w' H. rewrite lfsEntries_body_pick. by apply pick_keeps.
  - split; [|split; [|split]].
    + intros v b u w' H. rewrite lno_body_pick. by apply pick_records.
    + intros v b e w' H. rewrite lnoEntries_body_pick.
      by apply (pick_records (numObjects ∘ UpstreamFs)).
    + intros v b u w' H Hmin. rewrite lfs_body_pick.
      apply pick_records; [done|]. apply Z.gtb_lt. lia.
    + intros v b e w' H Hmin. rewrite lfsEntries_body_pick.
      apply (pick_records (freeSpace ∘ UpstreamFs)); [done|].
      apply Z.gtb_lt. unfold compose. lia.
  - split; [|split; [|split]].
    + intros u. rewrite lno_eval.
      pose proof (scan_Some_iff numObjects always (eval (Shuffle ups) w) u) as Hiff.
      destruct (scan _ _ _).2 as [x|]; simpl.
      * split.
        -- intros [= <-]. by apply Hiff.
        -- intros [Hlt Hf]. by apply Hiff.
      * split; [done|]. intros [Hlt Hf]. by apply Hiff.
    + intros e. rewrite lnoEntries_eval. simpl.
      rewrite (scan_Some_iff (numObjects ∘ UpstreamFs) always). tauto.
    + intros u. rewrite lfs_eval.
      pose proof (scan_Some_iff freeSpace aboveMin (eval (Shuffle ups) w) u) as Hiff.
      assert (aboveMin u = true <-> MinFreeSpace (Opt u) < freeSpace u) as Hab.
      { unfold aboveMin. rewrite Z.gtb_lt. lia. }
      destruct (scan _ _ _).2 as [x|]; simpl.
      * split.
        -- intros [= <-]. destruct Hiff as [H _].
           destruct (H eq_refl) as (? & ? & ?). split; [|done].
           split; [by apply Hab | done].
        -- intros [[Hmin Hlt] Hf]. apply Hiff. split; [by apply Hab | done].
      * split; [done|]. intros [[Hmin Hlt] Hf].
        apply Hiff. split; [by apply Hab | done].
    + intros e. rewrite lfsEntries_eval.
      pose proof (scan_Some_iff (freeSpace ∘ UpstreamFs) (aboveMin ∘ UpstreamFs)
                    (eval (Shuffle es) w) e) as Hiff.
      assert ((aboveMin ∘ UpstreamFs) e = true
              <-> MinFreeSpace (Opt (UpstreamFs e)) < freeSpace (UpstreamFs e))
        as Hab.
      { unfold compose, aboveMin. rewrite Z.gtb_lt. lia. }
      destruct (scan _ _ _).2 as [x|]; simpl.
      * split.
        -- intros [= <-]. destruct Hiff as [H _].
           destruct (H eq_refl) as (? & ? & ?). split; [|done].
           split; [by apply Hab | done].
        -- intros [[Hmin Hlt] Hf]. apply Hiff. split; [by apply Hab | done].
      * split; [done|]. intros [[Hmin Hlt] Hf].
        apply Hiff. split; [by apply Hab | done].
Qed.

(** [A1] and [B1] tie on five objects and [B1] has the least free space;
    the shuffle of [w1] puts [B1] first, so [B1] is the first least for
    both metrics and all four reductions return it.  Against a running best
    of [B1], [A1] is kept out; against a running best of [C1], it gets
    in. *)
Lemma first_least_wins_witness :
  let ups := [Sample.A1; Sample.B1; Sample.C1] in
  let es := map Sample.entry ups in
  let eA := Sample.entry Sample.A1 in
  let eB := Sample.entry Sample.B1 in
  let eC := Sample.entry Sample.C1 in
  let w := Sample.w1 in
  (eval (Shuffle ups) w = [Sample.B1; Sample.C1; Sample.A1]
   /\ eval (Shuffle es) w = [eB; eC; eA])
  /\ (eval (EpLno.lno_body (5, Some Sample.B1) Sample.A1) w = (5, Some Sample.B1)
      /\ eval (EpLno.lnoEntries_body (5, Some eB) eA) w = (5, Some eB)
      /\ eval (EpLfs.lfs_body (50, Some Sample.B1) Sample.A1) w
         = (50, Some Sample.B1)
      /\ eval (EpLfs.lfsEntries_body (50, Some eB) eA) w = (50, Some eB))
  /\ (eval (EpLno.lno_body (9, Some Sample.C1) Sample.A1) w = (5, Some Sample.A1)
      /\ eval (EpLno.lnoEntries_body (9, Some eC) eA) w = (5, Some eA)
      /\ eval (EpLfs.lfs_body (200, Some Sample.C1) Sample.A1) w
         = (100, Some Sample.A1)
      /\ eval (EpLfs.lfsEntries_body (200, Some eC) eA) w = (100, Some eA))
  /\ ((eval (EpLno.lno ups) w).1 = Some Sample.B1
      /\ (eval (EpLno.lnoEntries es) w).1 = Some eB
      /\ (eval (EpLfs.lfs ups) w).1 = Some Sample.B1
      /\ (eval (EpLfs.lfsEntries es) w).1 = Some eB).
Proof.
  intros ups es eA eB eC w.
  destruct (first_least_wins ups es w)
    as ((K1 & K2 & K3 & K4) & (R1 & R2 & R3 & R4) & (F1 & F2 & F3 & F4)).
  assert (forall (A : Type) m ok (x y z : A),
            m x <= m y -> m x <= m z ->
            first_least m ok [x; y; z] x) as Hfirst.
  { intros A m ok x y z Hy Hz. exists [], [y; z]. split; [done|]. split.
    - intros t Ht. by apply elem_of_nil in Ht.
    - intros t Ht _.
      repeat (apply elem_of_cons in Ht as [->|Ht]); try done.
      by apply elem_of_nil in Ht. }
  split; [split; reflexivity|]. split; [|split].
  - split; [apply K1; by compute|]. split; [apply K2; by compute|].
    split; [apply K3; by compute | apply K4; by compute].
  - split; [apply (R1 9 _ Sample.A1); by compute|].
    split; [apply (R2 9 _ eA); by compute|].
    split; [apply (R3 200 _ Sample.A1); by compute
           | apply (R4 200 _ eA); by compute].
  - split; [apply F1; split; [by compute | apply Hfirst; by compute]|].
    split; [apply F2; split; [by compute | apply Hfirst; by compute]|].
    split; [apply F3; split; [split; by compute | apply Hfirst; by compute]|].
    apply F4; split; [split; by compute | apply Hfirst; by compute].
Defined.

(** ** Dispatch: success *)

(** What does hold of the dispatch methods: a result without error has
    exactly one element, and for the reductions that test their best for
    [nil] that element is a candidate the filter kept. *)
Lemma pipeline_singleton {A} (filter : M (list A * option error))
    (reduce : list A -> M (option A * option error)) w res :
  eval (let* (l, err) := filter in
        match err with
        | Some e => ret ([], Some e)
        | None => let* (u, err) := reduce l in ret ([u], err)
        end) w = (res, None) ->
  exists u, res = [u] /\ eval (reduce (eval filter w).1) (exec filter w) = (u, None).
Proof.
  rewrite eval_bind. destruct (eval filter w) as [l [e'|]] eqn:Hf; simpl; [done|].
  rewrite eval_bind.
  destruct (eval (reduce l) (exec filter w)) as [v err] eqn:Hr; simpl.
  intros [= <- ->]. by exists v.
Qed.

Lemma lno_success ups w v : eval (EpLno.lno ups) w = (v, None) -> is_Some v.
Proof. rewrite lno_eval. destruct (scan _ _ _).2; intros [= <-]; eauto. Qed.

Lemma lfs_success ups w v : eval (EpLfs.lfs ups) w = (v, None) -> is_Some v.
Proof. rewrite lfs_eval. destruct (scan _ _ _).2; intros [= <-]; eauto. Qed.

Lemma lfsEntries_success es w v :
  eval (EpLfs.lfsEntries es) w = (v, None) -> is_Some v.
Proof. rewrite lfsEntries_eval. destruct (scan _ _ _).2; intros [= <-]; eauto. Qed.

Lemma EpLno_Action_success p ups path w res :
  eval (EpLno.Action p ups path) w = (res, None) -> exists u, res = [Some u].
Proof.
  intros (v & -> & Hv)%pipeline_singleton.
  apply lno_success in Hv as [u ->]. by exists u.
Qed.

Lemma EpLfs_Action_success q ups path w res :
  eval (EpLfs.Action q ups path) w = (res, None) -> exists u, res = [Some u].
Proof.
  intros (v & -> & Hv)%pipeline_singleton.
  apply lfs_success in Hv as [u ->]. by exists u.
Qed.

Lemma EpLfs_ActionEntries_success q es w res :
  eval (EpLfs.ActionEntries q es) w = (res, None) -> exists e, res = [Some e].
Proof.
  intros (v & -> & Hv)%pipeline_singleton.
  apply lfsEntries_success in Hv as [e ->]. by exists e.
Qed.

(** C8.  The entry of [Afull], an upstream that reports the largest [int64]
    as its object count, exists and is the only candidate: [SearchEntries]
    of the least-object-count policy succeeds with no entry, and its
    [ActionEntries] and [CreateEntries] succeed with a list that holds
    [nil] and no entry. *)
Theorem EpLno_entries_success_without_winner (w : World) :
  let p := EpLno.mk Sample.everywhere in
  let es := [Sample.entry Sample.Afull] in
  Fs_ok Sample.Afull = true
  /\ eval (EpLno.SearchEntries p es) w = (None, None)
  /\ eval (EpLno.ActionEntries p es) w = ([None], None)
  /\ eval (EpLno.CreateEntries p es) w = ([None], None).
Proof. done. Qed.

(** The same happens when the filter keeps no entry and reports no error. *)
Lemma EpLno_entries_success_on_empty_filter (w : World) :
  let p := EpLno.mk Sample.everywhere in
  eval (EpLno.ActionEntries p []) w = ([None], None)
  /\ eval (EpLno.CreateEntries p []) w = ([None], None).
Proof. done. Qed.

(** ** Search on no candidate *)

(** C9.  [Search] and [SearchEntries] of both policies, called with no
    candidate, return the not-found error and leave the world as they
    found it, whatever the existence filter would do: no random value is
    drawn, no existence check or metric query is issued, nothing is
    logged. *)
Theorem Search_empty_not_found (p : EpLno.t) (q : EpLfs.t) (path : string)
    (w : World) :
  EpLno.Search p [] path w = ((None, Some ErrorObjectNotFound), w)
  /\ EpLno.SearchEntries p [] w = ((None, Some ErrorObjectNotFound), w)
  /\ EpLfs.Search q [] path w = ((None, Some ErrorObjectNotFound), w)
  /\ EpLfs.SearchEntries q [] w = ((None, Some ErrorObjectNotFound), w).
Proof. done. Qed.

(** On a candidate the same filter and scan do leave their marks. *)
Example Search_one_candidate_trace :
  trace (exec (EpLno.Search (EpLno.mk Sample.everywhere) [Sample.Aerr] "dir")
           Sample.w0)
  = [EvExists "A" "dir"; EvGetNumObjects "A";
     EvLogNotice "Number of Objects is not supported for upstream A, treating as 0"].
Proof. reflexivity. Qed.

(** ** The winner is a candidate *)

(** C10.  Whatever upstream or entry a reduction returns is an element of
    the candidate list it was given. *)
Theorem winner_is_candidate (ups : list Fs) (es : list Entry) (w : World) :
  (forall u, (eval (EpLno.lno ups) w).1 = Some u -> u ∈ ups)
  /\ (forall e, (eval (EpLno.lnoEntries es) w).1 = Some e -> e ∈ es)
  /\ (forall u, (eval (EpLfs.lfs ups) w).1 = Some u -> u ∈ ups)
  /\ (forall e, (eval (EpLfs.lfsEntries es) w).1 = Some e -> e ∈ es).
Proof.
  split; [|split; [|split]].
  - intros u. rewrite lno_eval.
    destruct (scan _ _ _).2 as [x|] eqn:Hscan; [|done].
    intros [= <-]. by apply scan_Some_elem_of, Shuffle_elem_of in Hscan.
  - intros e. rewrite lnoEntries_eval. simpl. intros Hscan.
    by apply scan_Some_elem_of, Shuffle_elem_of in Hscan.
  - intros u. rewrite lfs_eval.
    destruct (scan _ _ _).2 as [x|] eqn:Hscan; [|done].
    intros [= <-]. by apply scan_Some_elem_of, Shuffle_elem_of in Hscan.
  - intros e. rewrite lfsEntries_eval.
    destruct (scan _ _ _).2 as [x|] eqn:Hscan; [|done].
    intros [= <-]. by apply scan_Some_elem_of, Shuffle_elem_of in Hscan.
Qed.

(** Of [C1], [Aerr] and [Bthree] the least object count is the fallback of
    [Aerr] and the least free space that of [Bthree]. *)
Lemma winner_is_candidate_witness :
  let ups := [Sample.C1; Sample.Aerr; Sample.Bthree] in
  let es := map Sample.entry ups in
  let w := Sample.w1 in
  (eval (EpLno.lno ups) w).1 = Some Sample.Aerr
  /\ (eval (EpLfs.lfs ups) w).1 = Some Sample.Bthree
  /\ Sample.Aerr ∈ ups /\ Sample.entry Sample.Aerr ∈ es
  /\ Sample.Bthree ∈ ups /\ Sample.entry Sample.Bthree ∈ es.
Proof.
  intros ups es w.
  destruct (winner_is_candidate ups es w) as (H1 & H2 & H3 & H4).
  split; [reflexivity|]. split; [reflexivity|].
  split; [apply H1; reflexivity|]. split; [apply H2; reflexivity|].
  split; [apply H3; reflexivity | apply H4; reflexivity].
Defined.

(** ** The scenarios *)

Example scenario_least_free_space w :
  eval (EpLfs.lfs [Sample.A1; Sample.B1; Sample.C1]) w = (Some Sample.B1, None).
Proof.
  destruct (eval (EpLfs.lfs _) w) as [r e] eqn:Hr.
  pose proof Hr as Hr'. rewrite lfs_eval in Hr'.
  destruct (scan _ _ _).2 as [x|] eqn:Hscan.
  - injection Hr' as <- <-. f_equal. f_equal.
    pose proof (scan_Some_elem_of _ _ _ _ Hscan) as Hx.
    apply Shuffle_elem_of in Hx.
    assert (Sample.B1 ∈ eval (Shuffle [Sample.A1; Sample.B1; Sample.C1]) w) as HB.
    { apply Shuffle_elem_of. apply elem_of_cons. right. apply elem_of_cons. by left. }
    pose proof (scan_Some_least _ _ _ _ _ Hscan HB eq_refl) as Hle.
    repeat (apply elem_of_cons in Hx as [->|Hx]); try done.
    by apply elem_of_nil in Hx.
  - exfalso.
    assert (Sample.B1 ∈ eval (Shuffle [Sample.A1; Sample.B1; Sample.C1]) w) as HB.
    { apply Shuffle_elem_of. apply elem_of_cons. right. apply elem_of_cons. by left. }
    pose proof (proj1 (scan_None _ _ _) Hscan _ HB eq_refl) as Hle. done.
Qed.

Example scenario_only_eligible :
  eval (EpLfs.lfs [Sample.A2; Sample.B2]) Sample.w0 = (Some Sample.B2, None)
  /\ eval (EpLfs.lfs [Sample.A2; Sample.B2]) Sample.w1 = (Some Sample.B2, None).
Proof. done. Qed.

Example scenario_none_eligible w :
  eval (EpLfs.lfs [Sample.A2; Sample.B3]) w = (None, Some errNoUpstreamsFound).
Proof.
  apply lfs_all_under_threshold. intros u Hu.
  repeat (apply elem_of_cons in Hu as [->|Hu]); try done.
  by apply elem_of_nil in Hu.
Qed.

Example scenario_tie :
  eval (EpLno.lno [Sample.A1; Sample.B1; Sample.C1]) Sample.w0
    = (Some Sample.B1, None)
  /\ eval (EpLno.lno [Sample.A1; Sample.B1; Sample.C1])
       (mkWorld (fun n => S n) O []) = (Some Sample.A1, None).
Proof. done. Qed.

Example scenario_count_unsupported :
  eval (EpLno.lno [Sample.Aerr; Sample.Bthree]) Sample.w0 = (Some Sample.Aerr, None)
  /\ eval (EpLno.lno [Sample.Aerr; Sample.Bthree]) Sample.w1
     = (Some Sample.Aerr, None).
Proof. done. Qed.

(** * Further properties of the two policies *)

(** ** The shuffle *)

(** X1.  Whatever the random source yields, the shuffle returns the
    candidates it was given, each as often as before and none besides, and
    so as many of them. *)
Theorem Shuffle_permutes {A} (s : list A) (w : World) :
  eval (Shuffle s) w ≡ₚ s /\ length (eval (Shuffle s) w) = length s.
Proof.
  assert (eval (Shuffle s) w ≡ₚ s) as H by apply shuffle_from_Permutation.
  split; [done|]. by rewrite H.
Qed.

Lemma exec_shuffle_from {A} i : forall (s : list A) w,
  exec (shuffle_from i s) w = drawn i w.
Proof.
  induction i as [|i IH]; intros s w; simpl.
  - unfold exec, ret, drawn; simpl. destruct w; simpl. f_equal. lia.
  - rewrite exec_bind, IH. unfold drawn, exec, Intn; simpl. f_equal. lia.
Qed.

Lemma exec_Shuffle {A} (s : list A) w :
  exec (Shuffle s) w = drawn (length s - 1) w.
Proof. apply exec_shuffle_from. Qed.

(** ** The effects of the scans *)

Lemma exec_for_range {A S} (body : S -> A -> M S) (ev : A -> list Event) :
  (forall s x w, exec (body s x) w = logged (ev x) w) ->
  forall l s w, exec (for_range body l s) w = logged (flat_map ev l) w.
Proof.
  intros Hbody l. induction l as [|x l IH]; intros s w; simpl.
  - unfold exec, ret, logged; simpl. destruct w; simpl. by rewrite app_nil_r.
  - rewrite exec_bind, IH, Hbody. unfold logged; simpl. by rewrite app_assoc.
Qed.

Lemma exec_lno_body st u w : exec (EpLno.lno_body st u) w = logged (lno_events u) w.
Proof.
  destruct st as [v b]. unfold EpLno.lno_body, lno_events, GetNumObjects.
  rewrite !exec_bind, !eval_bind. simpl.
  destruct (usage_Objects u); simpl; rewrite exec_bind; simpl;
    case (_ >? _); unfold logged, exec; simpl; by rewrite <- ?app_assoc.
Qed.

Lemma exec_lnoEntries_body st e w :
  exec (EpLno.lnoEntries_body st e) w = logged (lno_events (UpstreamFs e)) w.
Proof.
  destruct st as [v b]. unfold EpLno.lnoEntries_body, lno_events, GetNumObjects.
  rewrite !exec_bind, !eval_bind. simpl.
  destruct (usage_Objects _); simpl; rewrite exec_bind; simpl;
    case (_ >? _); unfold logged, exec; simpl; by rewrite <- ?app_assoc.
Qed.

Lemma exec_lfs_body st u w : exec (EpLfs.lfs_body st u) w = logged (lfs_events u) w.
Proof.
  destruct st as [v b]. unfold EpLfs.lfs_body, lfs_events, GetFreeSpace.
  rewrite !exec_bind, !eval_bind. simpl.
  destruct (usage_Free u); simpl; rewrite exec_bind; simpl;
    case (EpLfs.better _ _ _); unfold logged, exec; simpl; by rewrite <- ?app_assoc.
Qed.

Lemma exec_lfsEntries_body st e w :
  exec (EpLfs.lfsEntries_body st e) w = logged (lfs_events (UpstreamFs e)) w.
Proof.
  destruct st as [v b]. unfold EpLfs.lfsEntries_body, lfs_events, GetFreeSpace.
  rewrite !exec_bind, !eval_bind. simpl.
  destruct (usage_Free _); simpl; rewrite exec_bind; simpl;
    case (EpLfs.better _ _ _); unfold logged, exec; simpl; by rewrite <- ?app_assoc.
Qed.

Lemma exec_lno ups w :
  exec (EpLno.lno ups) w
  = logged (flat_map lno_events (eval (Shuffle ups) w)) (drawn (length ups - 1) w).
Proof.
  unfold EpLno.lno. rewrite !exec_bind.
  rewrite (exec_for_range _ _ exec_lno_body), exec_Shuffle.
  destruct (eval (for_range _ _ _) _) as [v [u|]]; done.
Qed.

Lemma exec_lnoEntries es w :
  exec (EpLno.lnoEntries es) w
  = logged (flat_map (lno_events ∘ UpstreamFs) (eval (Shuffle es) w))
      (drawn (length es - 1) w).
Proof.
  unfold EpLno.lnoEntries. rewrite !exec_bind.
  rewrite (exec_for_range _ (lno_events ∘ UpstreamFs) exec_lnoEntries_body),
    exec_Shuffle.
  destruct (eval (for_range _ _ _) _) as [v [u|]]; done.
Qed.

Lemma exec_lfs ups w :
  exec (EpLfs.lfs ups) w
  = logged (flat_map lfs_events (eval (Shuffle ups) w)) (drawn (length ups - 1) w).
Proof.
  unfold EpLfs.lfs. rewrite !exec_bind.
  rewrite (exec_for_range _ _ exec_lfs_body), exec_Shuffle.
  destruct (eval (for_range _ _ _) _) as [v [u|]]; done.
Qed.

Lemma exec_lfsEntries es w :
  exec (EpLfs.lfsEntries es) w
  = logged (flat_map (lfs_events ∘ UpstreamFs) (eval (Shuffle es) w))
      (drawn (length es - 1) w).
Proof.
  unfold EpLfs.lfsEntries. rewrite !exec_bind.
  rewrite (exec_for_range _ (lfs_events ∘ UpstreamFs) exec_lfsEntries_body),
    exec_Shuffle.
  destruct (eval (for_range _ _ _) _) as [v [u|]]; done.
Qed.

(** X2.  [lno] and [lnoEntries] draw one random value per candidate but
    the first, then ask each candidate once, in the shuffled order, for its
    number of objects and write one notice after each query that failed;
    they issue no other query and no other log line. *)
Theorem lno_effects (ups : list Fs) (es : list Entry) (w : World) :
  exec (EpLno.lno ups) w
  = logged (flat_map lno_events (eval (Shuffle ups) w))
      (drawn (length ups - 1) w)
  /\ exec (EpLno.lnoEntries es) w
     = logged (flat_map (lno_events ∘ UpstreamFs) (eval (Shuffle es) w))
         (drawn (length es - 1) w).
Proof. split; [apply exec_lno | apply exec_lnoEntries]. Qed.

(** X3.  [lfs] and [lfsEntries] draw one random value per candidate but
    the first, then ask each candidate once, in the shuffled order, for its
    free space and write one notice after each query that failed; they
    issue no other query and no other log line. *)
Theorem lfs_effects (ups : list Fs) (es : list Entry) (w : World) :
  exec (EpLfs.lfs ups) w
  = logged (flat_map lfs_events (eval (Shuffle ups) w))
      (drawn (length ups - 1) w)
  /\ exec (EpLfs.lfsEntries es) w
     = logged (flat_map (lfs_events ∘ UpstreamFs) (eval (Shuffle es) w))
         (drawn (length es - 1) w).
Proof. split; [apply exec_lfs | apply exec_lfsEntries]. Qed.

(** ** Entry lists and handle lists *)

Lemma swap_fmap {A B} (f : A -> B) (s : list A) i j :
  swap (f <$> s) i j = f <$> swap s i j.
Proof.
  unfold swap. rewrite !list_lookup_fmap.
  destruct (s !! i) as [x|], (s !! j) as [y|]; simpl; try done.
  by rewrite !list_fmap_insert.
Qed.

Lemma shuffle_from_fmap {A B} (f : A -> B) i : forall (s : list A) w,
  eval (shuffle_from i (f <$> s)) w = f <$> eval (shuffle_from i s) w.
Proof.
  induction i as [|i IH]; intros s w; simpl.
  - done.
  - by rewrite !eval_bind, swap_fmap, IH.
Qed.

Lemma Shuffle_fmap {A B} (f : A -> B) (s : list A) w :
  eval (Shuffle (f <$> s)) w = f <$> eval (Shuffle s) w.
Proof. unfold Shuffle. rewrite length_fmap. apply shuffle_from_fmap. Qed.

Lemma foldl_pick_fmap {A B} (f : A -> B) (m : B -> Z) (ok : B -> bool) l :
  forall v b,
    foldl (pick m ok) (v, f <$> b) (f <$> l)
    = ((foldl (pick (m ∘ f) (ok ∘ f)) (v, b) l).1,
       f <$> (foldl (pick (m ∘ f) (ok ∘ f)) (v, b) l).2).
Proof.
  induction l as [|x l IH]; intros v b; simpl.
  - done.
  - assert (pick m ok (v, f <$> b) (f x)
            = ((pick (m ∘ f) (ok ∘ f) (v, b) x).1,
               f <$> (pick (m ∘ f) (ok ∘ f) (v, b) x).2)) as ->.
    { unfold pick, compose; simpl. by destruct (_ && _). }
    destruct (pick (m ∘ f) (ok ∘ f) (v, b) x) as [v' b']. apply IH.
Qed.

Lemma scan_fmap {A B} (f : A -> B) (m : B -> Z) (ok : B -> bool) l :
  (scan m ok (f <$> l)).2 = f <$> (scan (m ∘ f) (ok ∘ f) l).2.
Proof. exact (f_equal snd (foldl_pick_fmap f m ok l MaxInt64 None)). Qed.

(** X4.  A reduction over entries chooses the entry of the upstream the
    reduction over handles chooses among the entries' upstreams, under the
    same random source; for least free space the two also fail
    together. *)
Theorem entries_agree_with_handles (es : list Entry) (w : World) :
  UpstreamFs <$> (eval (EpLno.lnoEntries es) w).1
    = (eval (EpLno.lno (UpstreamFs <$> es)) w).1
  /\ UpstreamFs <$> (eval (EpLfs.lfsEntries es) w).1
     = (eval (EpLfs.lfs (UpstreamFs <$> es)) w).1
  /\ (eval (EpLfs.lfsEntries es) w).2
     = (eval (EpLfs.lfs (UpstreamFs <$> es)) w).2.
Proof.
  rewrite lno_eval, lnoEntries_eval, lfs_eval, lfsEntries_eval.
  rewrite !Shuffle_fmap, !scan_fmap. simpl.
  split; [|split].
  - by destruct (scan (numObjects ∘ UpstreamFs) _ _).2.
  - by destruct (scan (freeSpace ∘ UpstreamFs) _ _).2.
  - by destruct (scan (freeSpace ∘ UpstreamFs) _ _).2.
Qed.

(** ** What the reductions return, over the input as given *)

Lemma lno_Some ups w u :
  (eval (EpLno.lno ups) w).1 = Some u ->
  u ∈ ups /\ numObjects u < MaxInt64
  /\ forall x, x ∈ ups -> numObjects u <= numObjects x.
Proof.
  rewrite lno_eval. destruct (scan _ _ _).2 as [y|] eqn:Hscan; [|done].
  intros [= <-]. split; [|split].
  - by apply scan_Some_elem_of, Shuffle_elem_of in Hscan.
  - by apply scan_Some in Hscan as (_ & ? & _).
  - intros x Hx. apply (scan_Some_least _ _ _ _ _ Hscan); [|done].
    by apply Shuffle_elem_of.
Qed.

Lemma lno_None ups w :
  (eval (EpLno.lno ups) w).1 = None <->
  forall u, u ∈ ups -> MaxInt64 <= numObjects u.
Proof.
  rewrite lno_eval. destruct (scan _ _ _).2 as [y|] eqn:Hscan; simpl.
  - split; [done|]. intros Hall.
    pose proof (scan_Some_elem_of _ _ _ _ Hscan) as Hy.
    apply Shuffle_elem_of in Hy. apply scan_Some in Hscan as (_ & Hlt & _).
    specialize (Hall y Hy). lia.
  - split; [|done]. intros _ u Hu.
    apply (proj1 (scan_None _ _ _) Hscan); [|done]. by apply Shuffle_elem_of.
Qed.

Lemma lfs_Some ups w u :
  (eval (EpLfs.lfs ups) w).1 = Some u ->
  u ∈ ups /\ aboveMin u = true /\ freeSpace u < MaxInt64
  /\ forall x, x ∈ ups -> aboveMin x = true -> freeSpace u <= freeSpace x.
Proof.
  rewrite lfs_eval. destruct (scan _ _ _).2 as [y|] eqn:Hscan; [|done].
  intros [= <-]. split; [|split; [|split]].
  - by apply scan_Some_elem_of, Shuffle_elem_of in Hscan.
  - by apply scan_Some in Hscan as (? & _).
  - by apply scan_Some in Hscan as (_ & ? & _).
  - intros x Hx Hok. apply (scan_Some_least _ _ _ _ _ Hscan); [|done].
    by apply Shuffle_elem_of.
Qed.

Lemma lfs_None ups w :
  (eval (EpLfs.lfs ups) w).1 = None <->
  forall u, u ∈ ups -> aboveMin u = true -> MaxInt64 <= freeSpace u.
Proof.
  rewrite lfs_eval. destruct (scan _ _ _).2 as [y|] eqn:Hscan; simpl.
  - split; [done|]. intros Hall.
    pose proof (scan_Some_elem_of _ _ _ _ Hscan) as Hy.
    apply Shuffle_elem_of in Hy. apply scan_Some in Hscan as (Hok & Hlt & _).
    specialize (Hall y Hy Hok). lia.
  - split; [|done]. intros _ u Hu Hok.
    apply (proj1 (scan_None _ _ _) Hscan); [|done]. by apply Shuffle_elem_of.
Qed.

Lemma lfsEntries_Some es w e :
  (eval (EpLfs.lfsEntries es) w).1 = Some e ->
  e ∈ es /\ aboveMin (UpstreamFs e) = true /\ freeSpace (UpstreamFs e) < MaxInt64
  /\ forall x, x ∈ es -> aboveMin (UpstreamFs x) = true ->
       freeSpace (UpstreamFs e) <= freeSpace (UpstreamFs x).
Proof.
  rewrite lfsEntries_eval. destruct (scan _ _ _).2 as [y|] eqn:Hscan; [|done].
  intros [= <-]. split; [|split; [|split]].
  - by apply scan_Some_elem_of, Shuffle_elem_of in Hscan.
  - by apply scan_Some in Hscan as (? & _).
  - by apply scan_Some in Hscan as (_ & ? & _).
  - intros x Hx Hok.
    apply (scan_Some_least (freeSpace ∘ UpstreamFs) (aboveMin ∘ UpstreamFs)
             _ _ _ Hscan); [|done].
    by apply Shuffle_elem_of.
Qed.

Lemma lno_result ups w :
  eval (EpLno.lno ups) w
  = ((eval (EpLno.lno ups) w).1,
     if (eval (EpLno.lno ups) w).1 is None then Some ErrorObjectNotFound else None).
Proof. rewrite lno_eval. by destruct (scan _ _ _).2. Qed.

Lemma lfs_result ups w :
  eval (EpLfs.lfs ups) w
  = ((eval (EpLfs.lfs ups) w).1,
     if (eval (EpLfs.lfs ups) w).1 is None then Some errNoUpstreamsFound else None).
Proof. rewrite lfs_eval. by destruct (scan _ _ _).2. Qed.

(** ** The shuffle only decides ties *)

(** X5.  Two runs of [lno] on the same candidates, under any two random
    sources, fail together, and the upstreams they return have the same
    number of objects. *)
Theorem lno_shuffle_independent (ups : list Fs) (w w' : World) :
  (eval (EpLno.lno ups) w).2 = (eval (EpLno.lno ups) w').2
  /\ forall u u', (eval (EpLno.lno ups) w).1 = Some u ->
       (eval (EpLno.lno ups) w').1 = Some u' ->
       numObjects u = numObjects u'.
Proof.
  split.
  - rewrite (lno_result ups w), (lno_result ups w'). simpl.
    destruct (eval (EpLno.lno ups) w).1 as [u|] eqn:H1,
             (eval (EpLno.lno ups) w').1 as [u'|] eqn:H2; try done.
    + apply lno_Some in H1 as (Hu & Hlt & _).
      pose proof (proj1 (lno_None ups w') H2 u Hu). lia.
    + apply lno_Some in H2 as (Hu & Hlt & _).
      pose proof (proj1 (lno_None ups w) H1 u' Hu). lia.
  - intros u u' (Hu & _ & Hle)%lno_Some (Hu' & _ & Hle')%lno_Some.
    specialize (Hle u' Hu'). specialize (Hle' u Hu). lia.
Qed.

Lemma lno_shuffle_independent_witness :
  let ups := [Sample.A1; Sample.B1; Sample.C1] in
  let w' := mkWorld (fun n => S n) O [] in
  (eval (EpLno.lno ups) Sample.w0).1 = Some Sample.B1
  /\ (eval (EpLno.lno ups) w').1 = Some Sample.A1
  /\ numObjects Sample.B1 = numObjects Sample.A1.
Proof.
  intros ups w'. split; [reflexivity|]. split; [reflexivity|].
  apply (proj2 (lno_shuffle_independent ups Sample.w0 w')); reflexivity.
Defined.

(** X6.  Two runs of [lfs] on the same candidates, under any two random
    sources, fail together, and the upstreams they return have the same
    free space. *)
Theorem lfs_shuffle_independent (ups : list Fs) (w w' : World) :
  (eval (EpLfs.lfs ups) w).2 = (eval (EpLfs.lfs ups) w').2
  /\ forall u u', (eval (EpLfs.lfs ups) w).1 = Some u ->
       (eval (EpLfs.lfs ups) w').1 = Some u' ->
       freeSpace u = freeSpace u'.
Proof.
  split.
  - rewrite (lfs_result ups w), (lfs_result ups w'). simpl.
    destruct (eval (EpLfs.lfs ups) w).1 as [u|] eqn:H1,
             (eval (EpLfs.lfs ups) w').1 as [u'|] eqn:H2; try done.
    + apply lfs_Some in H1 as (Hu & Hok & Hlt & _).
      pose proof (proj1 (lfs_None ups w') H2 u Hu Hok). lia.
    + apply lfs_Some in H2 as (Hu & Hok & Hlt & _).
      pose proof (proj1 (lfs_None ups w) H1 u' Hu Hok). lia.
  - intros u u' (Hu & Hok & _ & Hle)%lfs_Some (Hu' & Hok' & _ & Hle')%lfs_Some.
    specialize (Hle u' Hu' Hok'). specialize (Hle' u Hu Hok). lia.
Qed.

Lemma lfs_shuffle_independent_witness :
  let B' := Sample.up "D" (Some 7) (Some 50) 0 in
  let ups := [Sample.A1; Sample.B1; B'] in
  let w' := mkWorld (fun n => S n) O [] in
  (eval (EpLfs.lfs ups) Sample.w0).1 = Some Sample.B1
  /\ (eval (EpLfs.lfs ups) w').1 = Some B'
  /\ freeSpace Sample.B1 = freeSpace B'.
Proof.
  intros B' ups w'. split; [reflexivity|]. split; [reflexivity|].
  apply (proj2 (lfs_shuffle_independent ups Sample.w0 w')); reflexivity.
Defined.

(** X7.  When one candidate has strictly fewer objects than every other
    and fewer than the largest [int64], [lno] returns it whatever the
    random source yields. *)
Theorem lno_unique_least (ups : list Fs) (u : Fs) (w : World) :
  u ∈ ups ->
  numObjects u < MaxInt64 ->
  (forall x, x ∈ ups -> x <> u -> numObjects u < numObjects x) ->
  eval (EpLno.lno ups) w = (Some u, None).
Proof.
  intros Hu Hlt Huniq. rewrite lno_result.
  destruct (eval (EpLno.lno ups) w).1 as [v|] eqn:Hv.
  - apply lno_Some in Hv as (Hvin & _ & Hle).
    destruct (decide (v = u)) as [->|Hne]; [done|].
    specialize (Huniq v Hvin Hne). specialize (Hle u Hu). lia.
  - pose proof (proj1 (lno_None ups w) Hv u Hu). lia.
Qed.

Lemma lno_unique_least_witness :
  eval (EpLno.lno [Sample.C1; Sample.Bthree; Sample.A1]) Sample.w1
  = (Some Sample.Bthree, None).
Proof.
  apply lno_unique_least.
  - apply elem_of_cons. right. apply elem_of_cons. by left.
  - reflexivity.
  - intros x Hx Hne.
    repeat (apply elem_of_cons in Hx as [->|Hx]); try done.
    by apply elem_of_nil in Hx.
Defined.

(** X8.  When one candidate above its threshold has strictly less free
    space than every other candidate above its own threshold, and less
    than the largest [int64], [lfs] returns it whatever the random source
    yields. *)
Theorem lfs_unique_least (ups : list Fs) (u : Fs) (w : World) :
  u ∈ ups ->
  MinFreeSpace (Opt u) < freeSpace u < MaxInt64 ->
  (forall x, x ∈ ups -> x <> u -> MinFreeSpace (Opt x) < freeSpace x ->
     freeSpace u < freeSpace x) ->
  eval (EpLfs.lfs ups) w = (Some u, None).
Proof.
  intros Hu [Hmin Hlt] Huniq. rewrite lfs_result.
  assert (aboveMin u = true) as Hok by (apply Z.gtb_lt; lia).
  destruct (eval (EpLfs.lfs ups) w).1 as [v|] eqn:Hv.
  - apply lfs_Some in Hv as (Hvin & Hokv & _ & Hle).
    destruct (decide (v = u)) as [->|Hne]; [done|].
    apply Z.gtb_lt in Hokv.
    specialize (Huniq v Hvin Hne Hokv). specialize (Hle u Hu Hok). lia.
  - pose proof (proj1 (lfs_None ups w) Hv u Hu Hok). lia.
Qed.

(** [B3] has the least free space but is under its threshold; of the
    others [A1] has the least. *)
Lemma lfs_unique_least_witness :
  eval (EpLfs.lfs [Sample.C1; Sample.B3; Sample.A1]) Sample.w1
  = (Some Sample.A1, None).
Proof.
  apply lfs_unique_least.
  - apply elem_of_cons. right. apply elem_of_cons. right. apply elem_of_cons. by left.
  - split; reflexivity.
  - intros x Hx Hne Hmin.
    repeat (apply elem_of_cons in Hx as [->|Hx]); try done.
    by apply elem_of_nil in Hx.
Defined.

(** ** Least free space over the input *)

(** X9.  The upstream [lfs] returns has no more free space than any
    candidate of the input that is above its own threshold. *)
Theorem lfs_least_free_space (ups : list Fs) (w : World) (u x : Fs) :
  (eval (EpLfs.lfs ups) w).1 = Some u ->
  x ∈ ups ->
  MinFreeSpace (Opt x) < freeSpace x ->
  freeSpace u <= freeSpace x.
Proof.
  intros (_ & _ & _ & Hle)%lfs_Some Hx Hmin.
  apply Hle; [done|]. apply Z.gtb_lt. lia.
Qed.

Lemma lfs_least_free_space_witness :
  (eval (EpLfs.lfs [Sample.A1; Sample.B1; Sample.C1]) Sample.w1).1 = Some Sample.B1
  /\ freeSpace Sample.B1 <= freeSpace Sample.C1.
Proof.
  split; [reflexivity|].
  apply (lfs_least_free_space [Sample.A1; Sample.B1; Sample.C1] Sample.w1).
  - reflexivity.
  - apply elem_of_cons. right. apply elem_of_cons. right. apply elem_of_cons. by left.
  - reflexivity.
Defined.

(** X10.  [lfs] reports that no upstream has enough space exactly when
    every candidate is at or under its threshold or has the largest
    [int64] as free space; it reports no other error. *)
Theorem lfs_no_upstream_iff (ups : list Fs) (w : World) :
  ((eval (EpLfs.lfs ups) w).2 = Some errNoUpstreamsFound <->
   forall u, u ∈ ups ->
     freeSpace u <= MinFreeSpace (Opt u) \/ MaxInt64 <= freeSpace u)
  /\ forall e, (eval (EpLfs.lfs ups) w).2 = Some e -> e = errNoUpstreamsFound.
Proof.
  rewrite lfs_result. simpl. split.
  - destruct (eval (EpLfs.lfs ups) w).1 as [v|] eqn:Hv.
    + split; [done|]. intros Hall.
      apply lfs_Some in Hv as (Hvin & Hok & Hlt & _).
      apply Z.gtb_lt in Hok. destruct (Hall v Hvin); lia.
    + split; [|done]. intros _ u Hu.
      destruct (Z.le_gt_cases (freeSpace u) (MinFreeSpace (Opt u))); [by left|].
      right. apply (proj1 (lfs_None ups w) Hv u Hu). apply Z.gtb_lt. lia.
  - intros e. destruct (eval (EpLfs.lfs ups) w).1; congruence.
Qed.

(** [A2] and [B3] are under their thresholds and [Afull] reports the
    largest [int64]. *)
Lemma lfs_no_upstream_iff_witness :
  (eval (EpLfs.lfs [Sample.A2; Sample.Afull; Sample.B3]) Sample.w1).2
  = Some errNoUpstreamsFound.
Proof.
  apply (proj1 (lfs_no_upstream_iff [Sample.A2; Sample.Afull; Sample.B3] Sample.w1)).
  intros u Hu.
  repeat (apply elem_of_cons in Hu as [->|Hu]);
    [by left | by right | by left | by apply elem_of_nil in Hu].
Defined.

(** ** Least number of objects: failed queries and the largest count *)

(** X11.  A candidate whose object count cannot be queried does not make
    [lno] fail: [lno] then returns an upstream, with no error, and that
    upstream counts no more than the fallback [0]. *)
Theorem lno_tolerates_failed_query (ups : list Fs) (u : Fs) (e : error)
    (w w' : World) :
  u ∈ ups ->
  (eval (GetNumObjects u) w').2 = Some e ->
  exists v, eval (EpLno.lno ups) w = (Some v, None) /\ numObjects v <= 0.
Proof.
  intros Hu Hfail. apply GetNumObjects_fallback in Hfail.
  rewrite lno_result.
  destruct (eval (EpLno.lno ups) w).1 as [v|] eqn:Hv.
  - exists v. split; [done|].
    apply lno_Some in Hv as (_ & _ & Hle). specialize (Hle u Hu). lia.
  - pose proof (proj1 (lno_None ups w) Hv u Hu) as Hmax.
    rewrite Hfail in Hmax. done.
Qed.

Lemma lno_tolerates_failed_query_witness :
  exists v, eval (EpLno.lno [Sample.C1; Sample.Aerr; Sample.Bthree]) Sample.w1
            = (Some v, None) /\ numObjects v <= 0.
Proof.
  apply (lno_tolerates_failed_query _ Sample.Aerr ErrUsageFieldNotSupported
           Sample.w1 Sample.w0).
  - apply elem_of_cons. right. apply elem_of_cons. by left.
  - reflexivity.
Defined.

(** X12.  On candidates that all count fewer objects than the largest
    [int64], [lno] returns the not-found error exactly when there is no
    candidate, and an upstream otherwise. *)
Theorem lno_not_found_iff_empty (ups : list Fs) (w : World) :
  (forall u, u ∈ ups -> numObjects u < MaxInt64) ->
  (eval (EpLno.lno ups) w = (None, Some ErrorObjectNotFound) <-> ups = [])
  /\ (ups <> [] -> exists u, eval (EpLno.lno ups) w = (Some u, None)).
Proof.
  intros Hlt. split.
  - split.
    + intros Hnf. destruct ups as [|u ups]; [done|].
      pose proof (proj1 (lno_None (u :: ups) w)) as Hn.
      rewrite Hnf in Hn. specialize (Hn eq_refl u (list_elem_of_here _ _)).
      specialize (Hlt u (list_elem_of_here _ _)). lia.
    + by intros ->.
  - intros Hne. rewrite lno_result.
    destruct (eval (EpLno.lno ups) w).1 as [v|] eqn:Hv; [by exists v|].
    destruct ups as [|u ups]; [done|].
    pose proof (proj1 (lno_None (u :: ups) w) Hv u (list_elem_of_here _ _)).
    specialize (Hlt u (list_elem_of_here _ _)). lia.
Qed.

Lemma lno_not_found_iff_empty_witness :
  exists u, eval (EpLno.lno [Sample.A1; Sample.Aerr]) Sample.w1 = (Some u, None).
Proof.
  apply (lno_not_found_iff_empty [Sample.A1; Sample.Aerr] Sample.w1); [|done].
  intros u Hu.
  repeat (apply elem_of_cons in Hu as [->|Hu]); try done.
  by apply elem_of_nil in Hu.
Defined.

(** ** Dispatch: what a successful call returns *)

Lemma pipeline_success {A} (filter : M (list A * option error))
    (reduce : list A -> M (option A * option error)) w res :
  eval (let* (l, err) := filter in
        match err with
        | Some e => ret ([], Some e)
        | None => let* (u, err) := reduce l in ret ([u], err)
        end) w = (res, None) ->
  (eval filter w).2 = None
  /\ exists u, res = [u]
     /\ eval (reduce (eval filter w).1) (exec filter w) = (u, None).
Proof.
  rewrite eval_bind. destruct (eval filter w) as [l [e'|]] eqn:Hf; simpl; [done|].
  rewrite eval_bind.
  destruct (eval (reduce l) (exec filter w)) as [v err] eqn:Hr; simpl.
  intros [= <- ->]. split; [done|]. by exists v.
Qed.

Lemma lno_least_objects_of ups w v :
  eval (EpLno.lno ups) w = (v, None) -> exists u, v = Some u /\ least_objects ups u.
Proof.
  intros H. pose proof (lno_result ups w) as Hr. rewrite H in Hr. simpl in Hr.
  destruct v as [u|]; [|done]. exists u. split; [done|].
  assert ((eval (EpLno.lno ups) w).1 = Some u) as Hu by by rewrite H.
  apply lno_Some in Hu as (? & _ & ?). by split.
Qed.

Lemma lfs_least_free_of ups w v :
  eval (EpLfs.lfs ups) w = (v, None) -> exists u, v = Some u /\ least_free ups u.
Proof.
  intros H. pose proof (lfs_result ups w) as Hr. rewrite H in Hr. simpl in Hr.
  destruct v as [u|]; [|done]. exists u. split; [done|].
  assert ((eval (EpLfs.lfs ups) w).1 = Some u) as Hu by by rewrite H.
  apply lfs_Some in Hu as (Hin & Hok & _ & Hle). apply Z.gtb_lt in Hok.
  split; [done|]. split; [done|].
  intros x Hx Hmin. apply Hle; [done|]. apply Z.gtb_lt. lia.
Qed.

Lemma lfsEntries_least_free_of es w v :
  eval (EpLfs.lfsEntries es) w = (v, None) ->
  exists e, v = Some e /\ e ∈ es /\ least_free (UpstreamFs <$> es) (UpstreamFs e).
Proof.
  intros H.
  assert ((eval (EpLfs.lfsEntries es) w).2 = None) as Hn by by rewrite H.
  rewrite lfsEntries_eval in Hn.
  destruct v as [e|].
  - exists e. split; [done|].
    assert ((eval (EpLfs.lfsEntries es) w).1 = Some e) as He by by rewrite H.
    apply lfsEntries_Some in He as (Hin & Hok & _ & Hle). apply Z.gtb_lt in Hok.
    split; [done|]. split; [|split; [done|]].
    + apply list_elem_of_fmap. by exists e.
    + intros x (y & -> & Hy)%list_elem_of_fmap Hmin.
      apply Hle; [done|]. apply Z.gtb_lt. lia.
  - rewrite lfsEntries_eval in H. destruct (scan _ _ _).2; done.
Qed.

(** X13.  A successful [Action] or [Create] of the least-object-count
    policy returns exactly one upstream, a successful [Search] returns
    one; in each case the filter reported no error, the upstream is one
    the filter kept, and no upstream the filter kept counts fewer
    objects. *)
Theorem EpLno_success (p : EpLno.t) (ups : list Fs) (path : string) (w : World) :
  (forall res, eval (EpLno.Action p ups path) w = (res, None) ->
     let kept := eval (EpAll.Action (EpLno.EpAll_ p) ups path) w in
     kept.2 = None /\ exists u, res = [Some u] /\ least_objects kept.1 u)
  /\ (forall res, eval (EpLno.Create p ups path) w = (res, None) ->
     let kept := eval (EpAll.Create (EpLno.EpAll_ p) ups path) w in
     kept.2 = None /\ exists u, res = [Some u] /\ least_objects kept.1 u)
  /\ (forall r, eval (EpLno.Search p ups path) w = (r, None) ->
     let kept := eval (EpAll.epall (EpLno.EpAll_ p) ups path) w in
     ups <> [] /\ kept.2 = None /\ exists u, r = Some u /\ least_objects kept.1 u).
Proof.
  split; [|split].
  - intros res (Hk & v & -> & Hv)%pipeline_success. split; [done|].
    apply lno_least_objects_of in Hv as (u & -> & Hu). by exists u.
  - intros res (Hk & v & -> & Hv)%pipeline_success. split; [done|].
    apply lno_least_objects_of in Hv as (u & -> & Hu). by exists u.
  - intros r. unfold EpLno.Search. destruct ups as [|u0 ups]; [done|]. simpl.
    rewrite eval_bind.
    destruct (eval (EpAll.epall _ _ _) w) as [l [e|]] eqn:Hf; simpl; [done|].
    intros Hv. split; [done|]. split; [done|].
    apply lno_least_objects_of in Hv as (u & -> & Hu). by exists u.
Qed.

(** The path exists on all three upstreams; [Bthree] counts the fewest
    objects. *)
Lemma EpLno_success_witness :
  let p := EpLno.mk Sample.everywhere in
  let ups := [Sample.C1; Sample.Bthree; Sample.A1] in
  (exists u, [Some Sample.Bthree] = [Some u] /\ least_objects ups u)
  /\ (exists u, Some Sample.Bthree = Some u /\ least_objects ups u).
Proof.
  intros p ups.
  destruct (EpLno_success p ups "dir" Sample.w1) as (HA & HC & HS).
  split.
  - pose proof (HC [Some Sample.Bthree] eq_refl) as _.
    apply (HA [Some Sample.Bthree] eq_refl).
  - apply (HS (Some Sample.Bthree) eq_refl).
Defined.

(** X14.  A successful [Action], [Create] or [Search] of the
    least-free-space policy, over handles or over entries, returns one
    upstream or entry that the filter kept, that is above its threshold,
    and that has no more free space than any kept candidate above its
    own threshold; [SearchEntries] chooses so among the entries it was
    given. *)
Theorem EpLfs_success (q : EpLfs.t) (ups : list Fs) (es : list Entry)
    (path : string) (w : World) :
  (forall res, eval (EpLfs.Action q ups path) w = (res, None) ->
     let kept := eval (EpAll.Action (EpLfs.EpAll_ q) ups path) w in
     kept.2 = None /\ exists u, res = [Some u] /\ least_free kept.1 u)
  /\ (forall res, eval (EpLfs.Create q ups path) w = (res, None) ->
     let kept := eval (EpAll.Create (EpLfs.EpAll_ q) ups path) w in
     kept.2 = None /\ exists u, res = [Some u] /\ least_free kept.1 u)
  /\ (forall r, eval (EpLfs.Search q ups path) w = (r, None) ->
     let kept := eval (EpAll.epall (EpLfs.EpAll_ q) ups path) w in
     ups <> [] /\ kept.2 = None /\ exists u, r = Some u /\ least_free kept.1 u)
  /\ (forall res, eval (EpLfs.ActionEntries q es) w = (res, None) ->
     let kept := eval (EpAll.ActionEntries (EpLfs.EpAll_ q) es) w in
     kept.2 = None
     /\ exists e, res = [Some e] /\ e ∈ kept.1
        /\ least_free (UpstreamFs <$> kept.1) (UpstreamFs e))
  /\ (forall res, eval (EpLfs.CreateEntries q es) w = (res, None) ->
     let kept := eval (EpAll.CreateEntries (EpLfs.EpAll_ q) es) w in
     kept.2 = None
     /\ exists e, res = [Some e] /\ e ∈ kept.1
        /\ least_free (UpstreamFs <$> kept.1) (UpstreamFs e))
  /\ (forall r, eval (EpLfs.SearchEntries q es) w = (r, None) ->
     es <> []
     /\ exists e, r = Some e /\ e ∈ es
        /\ least_free (UpstreamFs <$> es) (UpstreamFs e)).
Proof.
  split; [|split; [|split; [|split; [|split]]]].
  - intros res (Hk & v & -> & Hv)%pipeline_success. split; [done|].
    apply lfs_least_free_of in Hv as (u & -> & Hu). by exists u.
  - intros res (Hk & v & -> & Hv)%pipeline_success. split; [done|].
    apply lfs_least_free_of in Hv as (u & -> & Hu). by exists u.
  - intros r. unfold EpLfs.Search. destruct ups as [|u0 ups]; [done|]. simpl.
    rewrite eval_bind.
    destruct (eval (EpAll.epall _ _ _) w) as [l [e|]] eqn:Hf; simpl; [done|].
    intros Hv. split; [done|]. split; [done|].
    apply lfs_least_free_of in Hv as (u & -> & Hu). by exists u.
  - intros res (Hk & v & -> & Hv)%pipeline_success. split; [done|].
    apply lfsEntries_least_free_of in Hv as (e & -> & He). by exists e.
  - intros res (Hk & v & -> & Hv)%pipeline_success. split; [done|].
    apply lfsEntries_least_free_of in Hv as (e & -> & He). by exists e.
  - intros r. unfold EpLfs.SearchEntries. destruct es as [|e0 es]; [done|]. simpl.
    intros Hv. split; [done|].
    apply lfsEntries_least_free_of in Hv as (e & -> & He). by exists e.
Qed.

(** The path exists on all three upstreams; [B3] has the least free space
    but is under its threshold, and [A1] is returned. *)
Lemma EpLfs_success_witness :
  let q := EpLfs.mk Sample.everywhere in
  let ups := [Sample.C1; Sample.B3; Sample.A1] in
  let es := Sample.entry <$> ups in
  (exists u, [Some Sample.A1] = [Some u] /\ least_free ups u)
  /\ (exists u, Some Sample.A1 = Some u /\ least_free ups u)
  /\ (exists e, [Some (Sample.entry Sample.A1)] = [Some e] /\ e ∈ es
      /\ least_free (UpstreamFs <$> es) (UpstreamFs e))
  /\ (exists e, Some (Sample.entry Sample.A1) = Some e /\ e ∈ es
      /\ least_free (UpstreamFs <$> es) (UpstreamFs e)).
Proof.
  intros q ups es.
  destruct (EpLfs_success q ups es "dir" Sample.w1)
    as (HA & HC & HS & HAE & HCE & HSE).
  split; [|split; [|split]].
  - pose proof (HC [Some Sample.A1] eq_refl) as _.
    apply (HA [Some Sample.A1] eq_refl).
  - apply (HS (Some Sample.A1) eq_refl).
  - pose proof (HCE [Some (Sample.entry Sample.A1)] eq_refl) as _.
    apply (HAE [Some (Sample.entry Sample.A1)] eq_refl).
  - apply (HSE (Some (Sample.entry Sample.A1)) eq_refl).
Defined.

(** ** Result or error, never both, never neither *)

Lemma lfsEntries_result es w :
  eval (EpLfs.lfsEntries es) w
  = ((eval (EpLfs.lfsEntries es) w).1,
     if (eval (EpLfs.lfsEntries es) w).1 is None
     then Some errNoUpstreamsFound else None).
Proof. rewrite lfsEntries_eval. by destruct (scan _ _ _).2. Qed.

(** X15.  [lno], [lfs] and [lfsEntries], and with them [Search] of both
    policies and [SearchEntries] of the least-free-space policy, return
    an upstream or entry exactly when they return no error. *)
Theorem result_xor_error (p : EpLno.t) (q : EpLfs.t) (ups : list Fs)
    (es : list Entry) (path : string) (w : World) :
  (is_Some (eval (EpLno.lno ups) w).1 <-> (eval (EpLno.lno ups) w).2 = None)
  /\ (is_Some (eval (EpLfs.lfs ups) w).1 <-> (eval (EpLfs.lfs ups) w).2 = None)
  /\ (is_Some (eval (EpLfs.lfsEntries es) w).1
      <-> (eval (EpLfs.lfsEntries es) w).2 = None)
  /\ (is_Some (eval (EpLno.Search p ups path) w).1
      <-> (eval (EpLno.Search p ups path) w).2 = None)
  /\ (is_Some (eval (EpLfs.Search q ups path) w).1
      <-> (eval (EpLfs.Search q ups path) w).2 = None)
  /\ (is_Some (eval (EpLfs.SearchEntries q es) w).1
      <-> (eval (EpLfs.SearchEntries q es) w).2 = None).
Proof.
  assert (forall ups w, is_Some (eval (EpLno.lno ups) w).1
                        <-> (eval (EpLno.lno ups) w).2 = None) as Hlno.
  { intros l w0. rewrite (lno_result l w0). simpl.
    destruct (eval (EpLno.lno l) w0).1; split; first [done | by intros [? ?] | by eexists]. }
  assert (forall ups w, is_Some (eval (EpLfs.lfs ups) w).1
                        <-> (eval (EpLfs.lfs ups) w).2 = None) as Hlfs.
  { intros l w0. rewrite (lfs_result l w0). simpl.
    destruct (eval (EpLfs.lfs l) w0).1; split; first [done | by intros [? ?] | by eexists]. }
  assert (forall es w, is_Some (eval (EpLfs.lfsEntries es) w).1
                       <-> (eval (EpLfs.lfsEntries es) w).2 = None) as Hent.
  { intros l w0. rewrite (lfsEntries_result l w0). simpl.
    destruct (eval (EpLfs.lfsEntries l) w0).1; split; first [done | by intros [? ?] | by eexists]. }
  split; [apply Hlno|]. split; [apply Hlfs|]. split; [apply Hent|].
  split; [|split].
  - unfold EpLno.Search. destruct ups as [|u0 l]; simpl.
    + split; [by intros [? ?] | done].
    + rewrite eval_bind.
      destruct (eval (EpAll.epall _ _ _) w) as [k [e|]]; simpl; [|apply Hlno].
      split; [by intros [? ?] | done].
  - unfold EpLfs.Search. destruct ups as [|u0 l]; simpl.
    + split; [by intros [? ?] | done].
    + rewrite eval_bind.
      destruct (eval (EpAll.epall _ _ _) w) as [k [e|]]; simpl; [|apply Hlfs].
      split; [by intros [? ?] | done].
  - unfold EpLfs.SearchEntries. destruct es as [|e0 l]; simpl; [|apply Hent].
    split; [by intros [? ?] | done].
Qed.

Lemma result_xor_error_witness :
  (eval (EpLno.Search (EpLno.mk Sample.everywhere) [Sample.A1] "dir") Sample.w0).2
    = None
  /\ is_Some (eval (EpLfs.SearchEntries (EpLfs.mk Sample.broken) [] ) Sample.w0).2.
Proof.
  destruct (result_xor_error (EpLno.mk Sample.everywhere) (EpLfs.mk Sample.broken)
              [Sample.A1] [] "dir" Sample.w0) as (_ & _ & _ & H & _ & _).
  split; [|by eexists].
  apply H. by eexists.
Defined.

(** ** Search when the filter fails *)

(** X16.  When the existence filter of a [Search] on a non-empty list
    reports an error, [Search] returns that error and no upstream, and
    leaves the world as the filter left it: no random value is drawn and no
    metric query or log line follows. *)
Theorem Search_filter_error (p : EpLno.t) (q : EpLfs.t) (ups : list Fs)
    (path : string) (w : World) (e : error) :
  ups <> [] ->
  ((eval (EpAll.epall (EpLno.EpAll_ p) ups path) w).2 = Some e ->
   EpLno.Search p ups path w
   = ((None, Some e), exec (EpAll.epall (EpLno.EpAll_ p) ups path) w))
  /\ ((eval (EpAll.epall (EpLfs.EpAll_ q) ups path) w).2 = Some e ->
      EpLfs.Search q ups path w
      = ((None, Some e), exec (EpAll.epall (EpLfs.EpAll_ q) ups path) w)).
Proof.
  intros Hne. destruct ups as [|u0 l]; [done|]. split.
  - unfold EpLno.Search, eval, exec, bind; simpl.
    destruct (EpAll.epall _ _ _ w) as [[k err] w1]; simpl. by intros ->.
  - unfold EpLfs.Search, eval, exec, bind; simpl.
    destruct (EpAll.epall _ _ _ w) as [[k err] w1]; simpl. by intros ->.
Qed.

Lemma Search_filter_error_witness :
  EpLno.Search (EpLno.mk Sample.broken) [Sample.A1] "dir" Sample.w0
    = ((None, Some Sample.cancelled), Sample.w0)
  /\ EpLfs.Search (EpLfs.mk Sample.broken) [Sample.A1] "dir" Sample.w0
     = ((None, Some Sample.cancelled), Sample.w0).
Proof.
  destruct (Search_filter_error (EpLno.mk Sample.broken) (EpLfs.mk Sample.broken)
              [Sample.A1] "dir" Sample.w0 Sample.cancelled) as [H1 H2]; [done|].
  split; [apply H1 | apply H2]; reflexivity.
Defined.

(** ** Entry lists under least number of objects *)

Lemma pipeline_error {A} (filter : M (list A * option error))
    (reduce : list A -> M (option A * option error)) w :
  (forall l w, (eval (reduce l) w).2 = None) ->
  (eval (let* (l, err) := filter in
         match err with
         | Some e => ret ([], Some e)
         | None => let* (u, err) := reduce l in ret ([u], err)
         end) w).2 = (eval filter w).2.
Proof.
  intros Hred. rewrite eval_bind.
  destruct (eval filter w) as [l [e|]] eqn:Hf; simpl; [done|].
  rewrite eval_bind. specialize (Hred l (exec filter w)).
  by destruct (eval (reduce l) (exec filter w)) as [v err].
Qed.

(** X17.  [ActionEntries] and [CreateEntries] of the least-object-count
    policy return the error of their entry filter and no other, and
    [SearchEntries] given at least one entry returns no error at all. *)
Theorem EpLno_entries_error (p : EpLno.t) (es : list Entry) (w : World) :
  (eval (EpLno.ActionEntries p es) w).2
    = (eval (EpAll.ActionEntries (EpLno.EpAll_ p) es) w).2
  /\ (eval (EpLno.CreateEntries p es) w).2
     = (eval (EpAll.CreateEntries (EpLno.EpAll_ p) es) w).2
  /\ (es <> [] -> (eval (EpLno.SearchEntries p es) w).2 = None).
Proof.
  split; [|split].
  - apply pipeline_error, lnoEntries_no_error.
  - apply pipeline_error, lnoEntries_no_error.
  - intros Hne. destruct es as [|e es]; [done|].
    unfold EpLno.SearchEntries. simpl. apply lnoEntries_no_error.
Qed.

Lemma EpLno_entries_error_witness :
  (eval (EpLno.SearchEntries (EpLno.mk Sample.broken)
           [Sample.entry Sample.A1; Sample.entry Sample.Aerr]) Sample.w1).2 = None.
Proof.
  by apply (EpLno_entries_error (EpLno.mk Sample.broken)
              [Sample.entry Sample.A1; Sample.entry Sample.Aerr] Sample.w1).
Defined.

(** ** Dispatch: which upstreams are queried *)

Lemma exec_pipeline {A} (filter : M (list A * option error))
    (reduce : list A -> M (option A * option error)) w :
  exec (let* (l, err) := filter in
        match err with
        | Some e => ret ([], Some e)
        | None => let* (u, err) := reduce l in ret ([u], err)
        end) w
  = if (eval filter w).2 is Some _ then exec filter w
    else exec (reduce (eval filter w).1) (exec filter w).
Proof.
  rewrite exec_bind. destruct (eval filter w) as [l [e|]]; simpl; [done|].
  rewrite exec_bind. by destruct (eval (reduce l) (exec filter w)).
Qed.

(** X18.  [Action] and [Create] of either policy query nothing after a
    filter that failed; after a filter that succeeded they draw one random
    value per kept upstream but the first and query each kept upstream
    once, the upstreams the filter dropped not at all. *)
Theorem dispatch_effects (p : EpLno.t) (q : EpLfs.t) (ups : list Fs)
    (path : string) (w : World) :
  let after (f : M (list Fs * option error)) (ev : Fs -> list Event) : World :=
    if (eval f w).2 is Some _ then exec f w
    else logged (flat_map ev (eval (Shuffle (eval f w).1) (exec f w)))
           (drawn (length (eval f w).1 - 1) (exec f w)) in
  exec (EpLno.Action p ups path) w
    = after (EpAll.Action (EpLno.EpAll_ p) ups path) lno_events
  /\ exec (EpLno.Create p ups path) w
     = after (EpAll.Create (EpLno.EpAll_ p) ups path) lno_events
  /\ exec (EpLfs.Action q ups path) w
     = after (EpAll.Action (EpLfs.EpAll_ q) ups path) lfs_events
  /\ exec (EpLfs.Create q ups path) w
     = after (EpAll.Create (EpLfs.EpAll_ q) ups path) lfs_events.
Proof.
  simpl. split; [|split; [|split]].
  - unfold EpLno.Action. rewrite exec_pipeline.
    destruct (eval _ w).2; [done | apply exec_lno].
  - unfold EpLno.Create. rewrite exec_pipeline.
    destruct (eval _ w).2; [done | apply exec_lno].
  - unfold EpLfs.Action. rewrite exec_pipeline.
    destruct (eval _ w).2; [done | apply exec_lfs].
  - unfold EpLfs.Create. rewrite exec_pipeline.
    destruct (eval _ w).2; [done | apply exec_lfs].
Qed.
